(** * SHA-1, step by step: a shallow embedding of [javascript/main.js]

    The JavaScript program manipulates binary data as strings of the
    characters '0' and '1'.  The embedding keeps that representation:
    a register is a [string], the operations of [Utils] are functions on
    strings, and the fourteen steps of [Main.sha1] are composed in the
    order of the source.  Numbers are exact integers, which agrees with
    JavaScript's doubles below 2^53; every number the program builds from
    32-character words is below 2^33.  Exceptions ([RangeError] of
    [new Array], [TypeError] of a method call on [undefined]) are [None]. *)

From Stdlib Require Import ZArith List String Ascii Bool Lia.
Import ListNotations.

Local Open Scope string_scope.
Local Open Scope Z_scope.

(** ** A small error monad for thrown exceptions *)

Definition bind {A B : Type} (m : option A) (k : A -> option B) : option B :=
  match m with
  | Some a => k a
  | None => None
  end.

Notation "x <- m ;; k" := (bind m (fun x => k))
  (at level 61, m at next level, right associativity).

Fixpoint mapM {A B : Type} (f : A -> option B) (l : list A) : option (list B) :=
  match l with
  | [] => Some []
  | x :: r => y <- f x ;; ys <- mapM f r ;; Some (y :: ys)
  end.

Fixpoint foldM {A S : Type} (f : S -> A -> option S) (l : list A) (s : S)
  : option S :=
  match l with
  | [] => Some s
  | x :: r => s' <- f s x ;; foldM f r s'
  end.

(** ** JavaScript built-ins used by the program *)

Module JS.

(** A number is an integer or [NaN]. *)
Inductive number : Type :=
| NaN : number
| Num : Z -> number.

(** A string handed to [sha1] is a sequence of UTF-16 code units; what
    [charCodeAt] returns for each. *)
Definition source_string : Type := list N.

Definition char_codes (s : string) : source_string :=
  List.map N_of_ascii (list_ascii_of_string s).

(** [str.substr(start)]: the characters from [start] to the end. *)
Fixpoint substr_from (start : nat) (s : string) : string :=
  match start, s with
  | O, _ => s
  | S _, EmptyString => EmptyString
  | S n, String _ r => substr_from n r
  end.

(** [str.substr(start, len)]. *)
Definition substr (start len : nat) (s : string) : string :=
  String.substring start len s.

Definition digit_char (d : Z) : ascii :=
  List.nth (Z.to_nat d)
    ["0"; "1"; "2"; "3"; "4"; "5"; "6"; "7";
     "8"; "9"; "a"; "b"; "c"; "d"; "e"; "f"]%char "?"%char.

(** Digits of a natural number, most significant first.  The fuel counts
    digits; [digits_fuel] supplies more than the number has in any radix
    from two up. *)
Fixpoint nat_digits (fuel : nat) (radix n : Z) : string :=
  match fuel with
  | O => EmptyString
  | S f =>
      if n <? radix then String (digit_char n) EmptyString
      else nat_digits f radix (n / radix)
             ++ String (digit_char (n mod radix)) EmptyString
  end.

Definition digits_fuel (n : Z) : nat := S (Z.to_nat (Z.log2 n)).

(** [x.toString(radix)]. *)
Definition toString (radix : Z) (x : number) : string :=
  match x with
  | NaN => "NaN"
  | Num z =>
      if z <? 0 then "-" ++ nat_digits (digits_fuel (- z)) radix (- z)
      else nat_digits (digits_fuel z) radix z
  end.

Definition digit2 (c : ascii) : option Z :=
  if Ascii.eqb c "0" then Some 0
  else if Ascii.eqb c "1" then Some 1
  else None.

(** The value of the longest prefix of binary digits, continuing [acc]. *)
Fixpoint parse_digits (acc : Z) (s : string) : Z :=
  match s with
  | EmptyString => acc
  | String c r =>
      match digit2 c with
      | Some d => parse_digits (2 * acc + d) r
      | None => acc
      end
  end.

(** [parseInt(str, 2)] on a string without leading blanks or sign (the
    program only parses strings that start with a binary digit, and
    [undefined], which is parsed as the text "undefined"): [NaN] unless
    the first character is a binary digit. *)
Definition parseInt2 (s : string) : number :=
  match s with
  | EmptyString => NaN
  | String c _ =>
      match digit2 c with
      | Some _ => Num (parse_digits 0 s)
      | None => NaN
      end
  end.

Definition plus (x y : number) : number :=
  match x, y with
  | Num a, Num b => Num (a + b)
  | _, _ => NaN
  end.

(** [new Array(n).join(sep)]: [n] empty slots joined by [sep]; [new Array]
    throws a [RangeError] unless [0 <= n < 2^32].  The largest string an
    engine builds (some 2^28 characters or more) is not modelled; the
    program joins 511 slots at most. *)
Definition array_join (n : Z) (sep : string) : option string :=
  if (0 <=? n) && (n <? 4294967296)
  then Some (String.concat sep (List.repeat EmptyString (Z.to_nat n)))
  else None.

End JS.

(** ** [Utils] *)

Module Utils.

Definition getStringXTime (str : string) (count : Z) : option string :=
  JS.array_join (count + 1) str.

Definition uncons (s : string) : option ascii * string :=
  match s with
  | EmptyString => (None, EmptyString)
  | String c r => (Some c, r)
  end.

(** The three binary operators share one loop: [i] counts up while it is
    below either length, and [bits[i]] is [undefined] (here [None]) past
    the end of the shorter string.  [n] is the number of turns left. *)
Fixpoint bitwise_loop (test : option ascii -> option ascii -> bool)
  (n : nat) (bits1 bits2 : string) : string :=
  match n with
  | O => EmptyString
  | S n' =>
      let (c1, r1) := uncons bits1 in
      let (c2, r2) := uncons bits2 in
      String (if test c1 c2 then "1"%char else "0"%char)
             (bitwise_loop test n' r1 r2)
  end.

Definition bitwise (test : option ascii -> option ascii -> bool)
  (w1 w2 : string) : string :=
  bitwise_loop test (Nat.max (String.length w1) (String.length w2)) w1 w2.

Definition is1 (c : option ascii) : bool :=
  match c with
  | Some c => Ascii.eqb c "1"
  | None => false
  end.

(** [bits1[i] !== bits2[i]]. *)
Definition differ (c1 c2 : option ascii) : bool :=
  match c1, c2 with
  | Some a, Some b => negb (Ascii.eqb a b)
  | None, None => false
  | _, _ => true
  end.

Definition xor (w1 w2 : string) : string :=
  bitwise (fun c1 c2 => differ c1 c2 && (is1 c1 || is1 c2)) w1 w2.

Definition or (w1 w2 : string) : string :=
  bitwise (fun c1 c2 => is1 c1 || is1 c2) w1 w2.

Definition and (w1 w2 : string) : string :=
  bitwise (fun c1 c2 => is1 c1 && is1 c2) w1 w2.

Definition add (w1 w2 : string) (length : Z) : option string :=
  let decimalResult := JS.plus (JS.parseInt2 w1) (JS.parseInt2 w2) in
  let binaryResult := JS.toString 2 decimalResult in
  let len := Z.of_nat (String.length binaryResult) in
  if len <? length then
    zeros <- getStringXTime "0" (length - len) ;;
    Some (zeros ++ binaryResult)
  else if len >? length then
    Some (JS.substr_from (Z.to_nat (len - length)) binaryResult)
  else Some binaryResult.

Fixpoint not (w1 : string) : string :=
  match w1 with
  | EmptyString => EmptyString
  | String c r => String (if Ascii.eqb c "0" then "1"%char else "0"%char) (not r)
  end.

(** One turn of [rotate]: the first character goes to the end.  On the
    empty string [splice] yields nothing, [undefined] is pushed, and [join]
    prints it as the empty string. *)
Definition rotate1 (str : string) : string :=
  match str with
  | EmptyString => EmptyString
  | String c r => r ++ String c EmptyString
  end.

(** The source recurses on [count - 1] down to [0]; it is only called with
    the literals 1, 5 and 30, so [count] is a natural number.  The depth
    of recursion an engine allows is not modelled. *)
Fixpoint rotate (str : string) (count : nat) : string :=
  match count with
  | O => str
  | S n => rotate (rotate1 str) n
  end.

Definition binToHex (str : string) (length : Z) : option string :=
  let hex := JS.toString 16 (JS.parseInt2 str) in
  if Z.of_nat (String.length hex) <? 8 then
    zeros <- getStringXTime "0" (length - Z.of_nat (String.length hex)) ;;
    Some (zeros ++ hex)
  else Some hex.

End Utils.

(** ** [Main] *)

Module Main.

(** The working registers of one block. *)
Record registers : Type := Registers {
  a : string; b : string; c : string; d : string; e : string
}.

(** The hash state carried from block to block. *)
Record hash : Type := Hash {
  h0 : string; h1 : string; h2 : string; h3 : string; h4 : string
}.

(** Steps 1 and 2: the code units of the input. *)
Definition step2_to_ascii_code (str : JS.source_string) : list Z :=
  List.map Z.of_N str.

(** Step 3. *)
Definition step3_ascii_binary (str : JS.source_string) : list string :=
  List.map (fun c => JS.toString 2 (JS.Num c)) (step2_to_ascii_code str).

(** Step 4. *)
Definition pad8 (c : string) : option string :=
  if (String.length c <? 8)%nat then
    zeros <- Utils.getStringXTime "0" (8 - Z.of_nat (String.length c)) ;;
    Some (zeros ++ c)
  else Some c.

Definition step4_ascii_binary_8_length (str : JS.source_string)
  : option (list string) :=
  mapM pad8 (step3_ascii_binary str).

(** Step 5. *)
Definition step5_combine_str (str : JS.source_string) : option string :=
  l <- step4_ascii_binary_8_length str ;; Some (String.concat "" l).

(** Step 6. *)
Definition step6_append_1 (step5 : string) : string := step5 ++ "1".

(** Step 7. *)
Definition step7_modulo_512_is_448 (str : string) : option string :=
  let currentModulo := Z.of_nat (String.length str) mod 512 in
  if currentModulo <? 448 then
    zeros <- Utils.getStringXTime "0" (448 - currentModulo) ;;
    Some (str ++ zeros)
  else if currentModulo >? 448 then
    zeros <- Utils.getStringXTime "0" (512 - currentModulo + 448) ;;
    Some (str ++ zeros)
  else Some str.

(** Step 8. *)
Definition step8_append_step5_length (str step5 : string) : option string :=
  let step5BinaryLength :=
    JS.toString 2 (JS.Num (Z.of_nat (String.length step5))) in
  zeros <- Utils.getStringXTime "0"
             (64 - Z.of_nat (String.length step5BinaryLength)) ;;
  Some (str ++ (zeros ++ step5BinaryLength)).

(** Steps 5 to 8: the padded message. *)
Definition padded (str : JS.source_string) : option string :=
  step5 <- step5_combine_str str ;;
  step7 <- step7_modulo_512_is_448 (step6_append_1 step5) ;;
  step8_append_step5_length step7 step5.

(** Steps 9 and 10 share one loop: cut [size] characters off the front
    while the string is not empty.  A turn on a non-empty string removes a
    character at least (for [size] above zero), so the length of the
    string is fuel enough. *)
Fixpoint split_loop (fuel size : nat) (str : string) : list string :=
  match fuel with
  | O => []
  | S f =>
      if (0 <? String.length str)%nat
      then JS.substr 0 size str :: split_loop f size (JS.substr_from size str)
      else []
  end.

Definition split_every (size : nat) (str : string) : list string :=
  split_loop (String.length str) size str.

Definition step9_split_512b_chunks (str : string) : list string :=
  split_every 512 str.

Definition step10_split_32b_words (chunks : list string) : list (list string) :=
  List.map (split_every 32) chunks.

(** Step 11, one chunk.  Every turn pushes one word, so the loop makes
    [80 - words.length] turns, counted by [n].  [words[j - 3]] past the end
    is [undefined], on which [Utils.xor] throws. *)
Fixpoint expand_loop (n j : nat) (words : list string) : option (list string) :=
  match n with
  | O => Some words
  | S n' =>
      w3 <- List.nth_error words (j - 3) ;;
      w8 <- List.nth_error words (j - 8) ;;
      w14 <- List.nth_error words (j - 14) ;;
      w16 <- List.nth_error words (j - 16) ;;
      let tmp := Utils.xor w3 w8 in
      let tmp := Utils.xor tmp w14 in
      let tmp := Utils.xor tmp w16 in
      let tmp := Utils.rotate tmp 1 in
      expand_loop n' (S j) (words ++ [tmp])%list
  end.

Definition expand (words : list string) : option (list string) :=
  expand_loop (80 - List.length words) 16 words.

(** Step 11, all chunks. *)
Definition step11_80_words_per_chunk (chunks : list (list string))
  : option (list (list string)) :=
  mapM expand chunks.

(** Step 12. *)
Definition initial : hash :=
  Hash "01100111010001010010001100000001"
       "11101111110011011010101110001001"
       "10011000101110101101110011111110"
       "00010000001100100101010001110110"
       "11000011110100101110000111110000".

(** Step 13: the function and the constant of round [i]. *)
Definition round_f (i : nat) (b c d : string) : string :=
  if (i <? 20)%nat then
    Utils.or (Utils.and b c) (Utils.and (Utils.not b) d)
  else if (i <? 40)%nat then
    Utils.xor (Utils.xor b c) d
  else if (i <? 60)%nat then
    Utils.xor (Utils.xor (Utils.and b c) (Utils.and b d)) (Utils.and c d)
  else
    Utils.xor (Utils.xor b c) d.

Definition round_k (i : nat) : string :=
  if (i <? 20)%nat then "01011010100000100111100110011001"
  else if (i <? 40)%nat then "01101110110110011110101110100001"
  else if (i <? 60)%nat then "10001111000110111011110011011100"
  else "11001010011000101100000111010110".

(** [words[i]] as [Utils.add] reads it: [parseInt] prints [undefined] as
    the text "undefined". *)
Definition word_at (words : list string) (i : nat) : string :=
  List.nth i words "undefined".

(** The sum of one round: [tmp] of the source, from the rotation of [a]
    to the addition of [words[i]]. *)
Definition round_tmp (a f e k w : string) : option string :=
  let tmp := Utils.rotate a 5 in
  tmp <- Utils.add tmp f 32 ;;
  tmp <- Utils.add tmp e 32 ;;
  tmp <- Utils.add tmp k 32 ;;
  Utils.add tmp w 32.

(** Round [i]: the body of the inner loop. *)
Definition round (words : list string) (r : registers) (i : nat)
  : option registers :=
  let f := round_f i (b r) (c r) (d r) in
  let k := round_k i in
  tmp <- round_tmp (a r) f (e r) k (word_at words i) ;;
  Some (Registers tmp (a r) (Utils.rotate (b r) 30) (c r) (d r)).

(** The registers after the first [n] rounds. *)
Definition rounds (n : nat) (words : list string) (r : registers)
  : option registers :=
  foldM (round words) (List.seq 0 n) r.

(** The callback of [forEach]: eighty rounds from the hash state, then
    the five additions into it. *)
Definition process_chunk (h : hash) (words : list string) : option hash :=
  r <- rounds 80 words (Registers (h0 h) (h1 h) (h2 h) (h3 h) (h4 h)) ;;
  n0 <- Utils.add (h0 h) (a r) 32 ;;
  n1 <- Utils.add (h1 h) (b r) 32 ;;
  n2 <- Utils.add (h2 h) (c r) 32 ;;
  n3 <- Utils.add (h3 h) (d r) 32 ;;
  n4 <- Utils.add (h4 h) (e r) 32 ;;
  Some (Hash n0 n1 n2 n3 n4).

Definition step13 (chunks : list (list string)) : option hash :=
  foldM process_chunk chunks initial.

(** Step 14. *)
Definition step14_finalize (h : hash) : option string :=
  x0 <- Utils.binToHex (h0 h) 8 ;;
  x1 <- Utils.binToHex (h1 h) 8 ;;
  x2 <- Utils.binToHex (h2 h) 8 ;;
  x3 <- Utils.binToHex (h3 h) 8 ;;
  x4 <- Utils.binToHex (h4 h) 8 ;;
  Some (x0 ++ x1 ++ x2 ++ x3 ++ x4).

(** The schedules of all blocks of a message (steps 1 to 11). *)
Definition schedules (str : JS.source_string) : option (list (list string)) :=
  step8 <- padded str ;;
  step11_80_words_per_chunk
    (step10_split_32b_words (step9_split_512b_chunks step8)).

Definition sha1 (str : JS.source_string) : option string :=
  step11 <- schedules str ;;
  h <- step13 step11 ;;
  step14_finalize h.

End Main.

(** ** The unfinished draft

    A second file of the repository holds an earlier, unfinished [sha1]
    (it ends in a TODO and returns the words, no digest).  Its step 11
    pushes the exclusive or without rotating it, and its step 12 then
    rotates every word of every chunk, the first sixteen included. *)

Module Draft.

Fixpoint expand_loop (n j : nat) (words : list string) : option (list string) :=
  match n with
  | O => Some words
  | S n' =>
      w3 <- List.nth_error words (j - 3) ;;
      w8 <- List.nth_error words (j - 8) ;;
      w14 <- List.nth_error words (j - 14) ;;
      w16 <- List.nth_error words (j - 16) ;;
      let tmp := Utils.xor w3 w8 in
      let tmp := Utils.xor tmp w14 in
      let tmp := Utils.xor tmp w16 in
      expand_loop n' (S j) (words ++ [tmp])%list
  end.

Definition step11_80_words_per_chunk (chunks : list (list string))
  : option (list (list string)) :=
  mapM (fun words => expand_loop (80 - List.length words) 16 words) chunks.

Definition step12_rotate_words (chunks : list (list string))
  : list (list string) :=
  List.map (List.map (fun word => Utils.rotate word 1)) chunks.

(** The draft's [sha1]: steps 1 to 10 are those of the finished program,
    character for character; the result is the rotated words. *)
Definition sha1 (str : JS.source_string) : option (list (list string)) :=
  step8 <- Main.padded str ;;
  step11 <- step11_80_words_per_chunk
              (Main.step10_split_32b_words (Main.step9_split_512b_chunks step8)) ;;
  Some (step12_rotate_words step11).

End Draft.

(** ** Words as numbers: the vocabulary of the specification *)

Definition is_bit (c : ascii) : bool := Ascii.eqb c "0" || Ascii.eqb c "1".

(** A string of the characters '0' and '1' only. *)
Fixpoint binary (s : string) : bool :=
  match s with
  | EmptyString => true
  | String c r => is_bit c && binary r
  end.

(** A register: exactly 32 characters drawn from '0' and '1'. *)
Definition word32 (s : string) : bool :=
  (String.length s =? 32)%nat && binary s.

(** The unsigned integer a binary string denotes, big-endian. *)
Fixpoint value (s : string) : Z :=
  match s with
  | EmptyString => 0
  | String c r =>
      (if Ascii.eqb c "1" then 2 ^ Z.of_nat (String.length r) else 0) + value r
  end.

Definition bit_char (x : bool) : ascii := if x then "1"%char else "0"%char.

(** The [w]-character big-endian binary representation of [n]. *)
Fixpoint be_bits (w : nat) (n : Z) : string :=
  match w with
  | O => EmptyString
  | S w' => String (bit_char (Z.testbit n (Z.of_nat w'))) (be_bits w' n)
  end.

Fixpoint replicate (k : nat) (s : string) : string :=
  match k with
  | O => EmptyString
  | S k' => s ++ replicate k' s
  end.

(** Rotation of a 32-bit value to the left by [k] bits. *)
Definition rotl32 (k : Z) (x : Z) : Z :=
  Z.lor (Z.shiftl x k) (Z.shiftr x (32 - k)) mod 2 ^ 32.

Definition add32 (x y : Z) : Z := (x + y) mod 2 ^ 32.

(** The round function of rounds 40 to 59 as the specification writes it. *)
Definition maj (b c d : Z) : Z :=
  Z.lor (Z.lor (Z.land b c) (Z.land b d)) (Z.land c d).

Definition registers_ok (r : Main.registers) : bool :=
  word32 (Main.a r) && word32 (Main.b r) && word32 (Main.c r)
  && word32 (Main.d r) && word32 (Main.e r).

Definition hash_ok (h : Main.hash) : bool :=
  word32 (Main.h0 h) && word32 (Main.h1 h) && word32 (Main.h2 h)
  && word32 (Main.h3 h) && word32 (Main.h4 h).

(** A schedule: eighty registers. *)
Definition schedule_ok (words : list string) : bool :=
  (List.length words =? 80)%nat && List.forallb word32 words.

Definition words_ok (words : list string) : Prop :=
  List.Forall (fun w => word32 w = true) words.

(** What the recurrence of step 11 says of the word at index [t]. *)
Definition recurrence_at (W : list string) (t : nat) : Prop :=
  exists w3 w8 w14 w16 wt,
    List.nth_error W (t - 3) = Some w3
    /\ List.nth_error W (t - 8) = Some w8
    /\ List.nth_error W (t - 14) = Some w14
    /\ List.nth_error W (t - 16) = Some w16
    /\ List.nth_error W t = Some wt
    /\ wt = Utils.rotate
              (Utils.xor (Utils.xor (Utils.xor w3 w8) w14) w16) 1
    /\ value wt
       = rotl32 1
           (Z.lxor (Z.lxor (Z.lxor (value w3) (value w8)) (value w14))
              (value w16)).

(** A schedule and the block it was expanded from. *)
Definition schedule_of (block W : list string) : Prop :=
  Main.expand block = Some W
  /\ schedule_ok W = true
  /\ List.firstn 16 W = block
  /\ (forall t, (16 <= t < 80)%nat -> recurrence_at W t).

(** The number of binary characters step 4 leaves for a code unit. *)
Definition code_unit_bits (c : N) : Z := Z.max 8 (Z.log2 (Z.of_N c) + 1).

(** The bit-length of the message as step 5 builds it. *)
Definition message_bits (str : JS.source_string) : Z :=
  List.fold_right (fun c n => code_unit_bits c + n) 0 str.

Definition is_byte (c : N) : bool := (c <? 256)%N.

(** A code unit as one byte: eight bits, most significant first. *)
Definition byte_bits (c : N) : string := be_bits 8 (Z.of_N c).

Definition hex_digit (c : ascii) : Z :=
  match List.find (fun d => Ascii.eqb (JS.digit_char d) c)
          (List.map Z.of_nat (List.seq 0 16)) with
  | Some d => d
  | None => 0
  end.

(** The number a string of hexadecimal digits denotes, big-endian. *)
Fixpoint hex_value (s : string) : Z :=
  match s with
  | EmptyString => 0
  | String c r => hex_digit c * 16 ^ Z.of_nat (String.length r) + hex_value r
  end.

(** ** SHA-1 on 32-bit integers

    The same computation with registers as numbers, to compare the
    program on strings with. *)

Module Num.

Record registers : Type := Registers { a : Z; b : Z; c : Z; d : Z; e : Z }.

Definition f (i : nat) (b c d : Z) : Z :=
  if (i <? 20)%nat then Z.lor (Z.land b c) (Z.land (Z.lnot b) d)
  else if (i <? 40)%nat then Z.lxor (Z.lxor b c) d
  else if (i <? 60)%nat then maj b c d
  else Z.lxor (Z.lxor b c) d.

Definition k (i : nat) : Z :=
  if (i <? 20)%nat then 0x5A827999
  else if (i <? 40)%nat then 0x6ED9EBA1
  else if (i <? 60)%nat then 0x8F1BBCDC
  else 0xCA62C1D6.

Definition round (W : list Z) (r : registers) (i : nat) : registers :=
  Registers
    ((rotl32 5 (a r) + f i (b r) (c r) (d r) + e r + k i + List.nth i W 0)
     mod 2 ^ 32)
    (a r) (rotl32 30 (b r)) (c r) (d r).

Definition rounds (n : nat) (W : list Z) (r : registers) : registers :=
  List.fold_left (round W) (List.seq 0 n) r.

Definition compress (h : registers) (W : list Z) : registers :=
  let r := rounds 80 W h in
  Registers (add32 (a h) (a r)) (add32 (b h) (b r)) (add32 (c h) (c r))
    (add32 (d h) (d r)) (add32 (e h) (e r)).

Fixpoint expand_loop (n j : nat) (W : list Z) : list Z :=
  match n with
  | O => W
  | S n' =>
      expand_loop n' (S j)
        (W ++ [rotl32 1
                 (Z.lxor
                    (Z.lxor (Z.lxor (List.nth (j - 3) W 0) (List.nth (j - 8) W 0))
                       (List.nth (j - 14) W 0))
                    (List.nth (j - 16) W 0))])%list
  end.

Definition expand (block : list Z) : list Z :=
  expand_loop (80 - List.length block) 16 block.

Definition initial : registers :=
  Registers 0x67452301 0xEFCDAB89 0x98BADCFE 0x10325476 0xC3D2E1F0.

Definition hash (blocks : list (list Z)) : registers :=
  List.fold_left (fun h block => compress h (expand block)) blocks initial.

End Num.

Definition register_values (r : Main.registers) : Num.registers :=
  Num.Registers (value (Main.a r)) (value (Main.b r)) (value (Main.c r))
    (value (Main.d r)) (value (Main.e r)).

Definition hash_values (h : Main.hash) : Num.registers :=
  Num.Registers (value (Main.h0 h)) (value (Main.h1 h)) (value (Main.h2 h))
    (value (Main.h3 h)) (value (Main.h4 h)).

(** The blocks of a padded message as numbers. *)
Definition block_values (p : string) : list (list Z) :=
  List.map (List.map value)
    (Main.step10_split_32b_words (Main.step9_split_512b_chunks p)).

(** Whether the character at index [i] is '1'; a character that is
    missing or is anything else counts as 0. *)
Definition bit_at (w : string) (i : nat) : bool :=
  match String.get i w with
  | Some c => Ascii.eqb c "1"
  | None => false
  end.

(** A lower-case hexadecimal digit. *)
Definition is_hex_char (c : ascii) : bool :=
  List.existsb (Ascii.eqb c)
    ["0"; "1"; "2"; "3"; "4"; "5"; "6"; "7";
     "8"; "9"; "a"; "b"; "c"; "d"; "e"; "f"]%char.

Fixpoint all_hex (s : string) : bool :=
  match s with
  | EmptyString => true
  | String c r => is_hex_char c && all_hex r
  end.

(** The binary characters steps 3 and 4 leave for a code unit: its binary
    digits, at least eight. *)
Definition unit_bits (c : N) : string :=
  be_bits (Z.to_nat (code_unit_bits c)) (Z.of_N c).

(** The recurrence of the draft: the word at index [t] is the exclusive
    or of the words 3, 8, 14 and 16 places before it, not rotated. *)
Definition xor_recurrence_at (W : list string) (t : nat) : Prop :=
  exists w3 w8 w14 w16,
    List.nth_error W (t - 3) = Some w3
    /\ List.nth_error W (t - 8) = Some w8
    /\ List.nth_error W (t - 14) = Some w14
    /\ List.nth_error W (t - 16) = Some w16
    /\ List.nth_error W t
       = Some (Utils.xor (Utils.xor (Utils.xor w3 w8) w14) w16).

(** The eighty words the draft returns for a block. *)
Definition draft_words_of (block W : list string) : Prop :=
  List.length W = 80%nat
  /\ List.Forall (fun w => word32 w = true) W
  /\ (forall t, (t < 16)%nat ->
      List.nth_error W t
      = option_map (fun word => Utils.rotate word 1) (List.nth_error block t))
  /\ (forall t, (16 <= t < 80)%nat -> xor_recurrence_at W t).

(** The block and the schedule of the message "abc", for examples. *)
Definition abc_block : list string :=
  Eval vm_compute in
    match Main.padded (JS.char_codes "abc") with
    | Some p =>
        List.hd []
          (Main.step10_split_32b_words (Main.step9_split_512b_chunks p))
    | None => []
    end.

Definition abc_schedule : list string :=
  Eval vm_compute in
    match Main.expand abc_block with
    | Some W => W
    | None => []
    end.

(** ** Strings *)

#[local] Arguments Z.mul : simpl never.
#[local] Arguments Z.add : simpl never.
#[local] Arguments Z.sub : simpl never.
#[local] Arguments Z.pow : simpl never.
#[local] Arguments Z.modulo : simpl never.
#[local] Arguments Z.div : simpl never.
#[local] Arguments Z.of_nat : simpl never.
#[local] Arguments Z.to_nat : simpl never.
#[local] Arguments Z.testbit : simpl never.

Lemma length_append (s t : string) :
  String.length (s ++ t) = (String.length s + String.length t)%nat.
Proof. induction s as [|x s IH]; simpl; [reflexivity | now rewrite IH]. Qed.

Lemma append_nil_r (s : string) : s ++ "" = s.
Proof. induction s as [|x s IH]; simpl; [reflexivity | now rewrite IH]. Qed.

Lemma append_assoc (s t u : string) : (s ++ t) ++ u = s ++ (t ++ u).
Proof. induction s as [|x s IH]; simpl; [reflexivity | now rewrite IH]. Qed.

Lemma binary_append (s t : string) :
  binary (s ++ t) = binary s && binary t.
Proof.
  induction s as [|x s IH]; simpl; [reflexivity|].
  now rewrite IH, andb_assoc.
Qed.

Lemma length_replicate1 (k : nat) (x : ascii) :
  String.length (replicate k (String x "")) = k.
Proof. induction k as [|k IH]; simpl; [reflexivity | now rewrite IH]. Qed.

Lemma binary_zeros (k : nat) : binary (replicate k "0") = true.
Proof. induction k as [|k IH]; simpl; [reflexivity | exact IH]. Qed.

Lemma value_zeros (k : nat) : value (replicate k "0") = 0.
Proof. induction k as [|k IH]; simpl; [reflexivity | exact IH]. Qed.

Lemma concat_empty_slots (sep : string) (k : nat) :
  String.concat sep (List.repeat "" (S k)) = replicate k sep.
Proof.
  induction k as [|k IH]; [reflexivity|].
  change (List.repeat "" (S (S k))) with ("" :: List.repeat "" (S k))%list.
  change (String.concat sep ("" :: List.repeat "" (S k))%list)
    with ("" ++ sep ++ String.concat sep (List.repeat "" (S k))).
  now rewrite IH.
Qed.

(** [getStringXTime] repeats its argument [count] times whenever the
    array it builds is of a legal length. *)
Lemma getStringXTime_repeats (str : string) (count : Z) :
  0 <= count < 4294967295 ->
  Utils.getStringXTime str count = Some (replicate (Z.to_nat count) str).
Proof.
  intros H. unfold Utils.getStringXTime, JS.array_join.
  replace ((0 <=? count + 1) && (count + 1 <? 4294967296)) with true
    by (symmetry; apply andb_true_iff; split;
        [apply Z.leb_le | apply Z.ltb_lt]; lia).
  replace (Z.to_nat (count + 1)) with (S (Z.to_nat count)) by lia.
  now rewrite concat_empty_slots.
Qed.

Lemma is_bit_cases (x : ascii) :
  is_bit x = true -> x = "0"%char \/ x = "1"%char.
Proof.
  unfold is_bit. intros H. apply orb_true_iff in H.
  destruct H as [H|H]; apply Ascii.eqb_eq in H; auto.
Qed.

Lemma value_bounds (s : string) :
  0 <= value s < 2 ^ Z.of_nat (String.length s).
Proof.
  induction s as [|x s IH]; simpl String.length; simpl value; [lia|].
  rewrite Nat2Z.inj_succ, Z.pow_succ_r by lia.
  destruct (Ascii.eqb x "1"); lia.
Qed.

Lemma value_append (s t : string) :
  value (s ++ t) = value s * 2 ^ Z.of_nat (String.length t) + value t.
Proof.
  induction s as [|x s IH]; simpl; [lia|].
  rewrite IH, length_append, Nat2Z.inj_add, Z.pow_add_r by lia.
  destruct (Ascii.eqb x "1"); lia.
Qed.

(** On binary strings the parser of [parseInt] computes [value]. *)
Lemma parse_digits_value (s : string) (acc : Z) :
  binary s = true ->
  JS.parse_digits acc s = acc * 2 ^ Z.of_nat (String.length s) + value s.
Proof.
  revert acc. induction s as [|x s IH]; intros acc Hb.
  - simpl. lia.
  - simpl in Hb. apply andb_true_iff in Hb. destruct Hb as [Hx Hs].
    simpl JS.parse_digits. simpl String.length. simpl value.
    rewrite Nat2Z.inj_succ, Z.pow_succ_r by lia.
    destruct (is_bit_cases x Hx) as [-> | ->]; simpl; rewrite IH by assumption; lia.
Qed.

Lemma parseInt2_binary (s : string) :
  binary s = true -> (0 < String.length s)%nat ->
  JS.parseInt2 s = JS.Num (value s).
Proof.
  intros Hb Hl. destruct s as [|x s]; [simpl in Hl; lia|].
  unfold JS.parseInt2.
  assert (Hx : is_bit x = true) by (simpl in Hb; now apply andb_true_iff in Hb).
  rewrite parse_digits_value by assumption.
  destruct (is_bit_cases x Hx) as [-> | ->]; reflexivity.
Qed.

(** ** [toString]: digits of a number *)

Lemma digit_char_bit (n : Z) :
  0 <= n < 2 -> JS.digit_char n = bit_char (n =? 1).
Proof.
  intros H. assert (C : n = 0 \/ n = 1) by lia.
  destruct C as [-> | ->]; reflexivity.
Qed.

Lemma binary_bit_char (x : bool) : binary (String (bit_char x) "") = true.
Proof. destruct x; reflexivity. Qed.

Lemma value_bit_char (x : bool) : value (String (bit_char x) "") = Z.b2z x.
Proof. destruct x; reflexivity. Qed.

Lemma nat_digits2_binary (fuel : nat) (n : Z) :
  0 <= n -> binary (JS.nat_digits fuel 2 n) = true.
Proof.
  revert n. induction fuel as [|f IH]; intros n Hn; simpl; [reflexivity|].
  destruct (Z.ltb_spec n 2) as [Hlt|Hge].
  - rewrite digit_char_bit by lia. apply binary_bit_char.
  - rewrite binary_append, IH by (apply Z.div_pos; lia).
    rewrite digit_char_bit by (apply Z.mod_pos_bound; lia).
    apply binary_bit_char.
Qed.

(** With fuel for every digit the digits denote the number. *)
Lemma nat_digits2_value (fuel : nat) (n : Z) :
  0 <= n < 2 ^ Z.of_nat fuel -> value (JS.nat_digits fuel 2 n) = n.
Proof.
  revert n. induction fuel as [|f IH]; intros n Hn.
  - simpl in *. change (2 ^ Z.of_nat 0) with 1 in Hn. lia.
  - rewrite Nat2Z.inj_succ, Z.pow_succ_r in Hn by lia.
    simpl. destruct (Z.ltb_spec n 2) as [Hlt|Hge].
    + rewrite digit_char_bit, value_bit_char by lia.
      destruct (Z.eqb_spec n 1); simpl; lia.
    + rewrite value_append, IH.
      * rewrite digit_char_bit, value_bit_char by (apply Z.mod_pos_bound; lia).
        change (Z.of_nat (String.length (String (bit_char (n mod 2 =? 1)) "")))
          with 1.
        pose proof (Z.mod_pos_bound n 2 ltac:(lia)).
        pose proof (Z.div_mod n 2 ltac:(lia)).
        destruct (Z.eqb_spec (n mod 2) 1); simpl Z.b2z; change (2 ^ 1) with 2; lia.
      * split; [apply Z.div_pos; lia | apply Z.div_lt_upper_bound; lia].
Qed.

Lemma nat_digits_nonempty (fuel : nat) (radix n : Z) :
  (0 < String.length (JS.nat_digits (S fuel) radix n))%nat.
Proof.
  simpl. destruct (n <? radix); [simpl; lia|].
  rewrite length_append. simpl. lia.
Qed.

(** A number below [radix ^ k] prints in at most [k] digits. *)
Lemma nat_digits_length_le (radix : Z) (fuel k : nat) (n : Z) :
  2 <= radix -> 0 <= n < radix ^ Z.of_nat k -> (1 <= k)%nat ->
  (String.length (JS.nat_digits fuel radix n) <= k)%nat.
Proof.
  intros Hr. revert k n. induction fuel as [|f IH]; intros k n Hn Hk; simpl; [lia|].
  destruct (Z.ltb_spec n radix) as [Hlt|Hge]; [simpl; lia|].
  rewrite length_append. simpl String.length.
  destruct k as [|k]; [lia|].
  rewrite Nat2Z.inj_succ, Z.pow_succ_r in Hn by lia.
  assert (Hk' : (1 <= k)%nat).
  { destruct k as [|k]; [|lia]. change (radix ^ Z.of_nat 0) with 1 in Hn. lia. }
  specialize (IH k (n / radix)).
  assert (0 <= n / radix < radix ^ Z.of_nat k).
  { split; [apply Z.div_pos; lia | apply Z.div_lt_upper_bound; lia]. }
  specialize (IH ltac:(assumption) Hk'). lia.
Qed.

Lemma digits_fuel_enough (n : Z) :
  0 <= n -> n < 2 ^ Z.of_nat (JS.digits_fuel n).
Proof.
  intros Hn. unfold JS.digits_fuel.
  rewrite Nat2Z.inj_succ, Z2Nat.id by apply Z.log2_nonneg.
  destruct (Z.eq_dec n 0) as [-> | Hz]; [reflexivity|].
  apply Z.log2_spec. lia.
Qed.

Lemma toString2_nat (n : Z) :
  0 <= n -> JS.toString 2 (JS.Num n) = JS.nat_digits (JS.digits_fuel n) 2 n.
Proof.
  intros Hn. unfold JS.toString.
  destruct (Z.ltb_spec n 0); [lia | reflexivity].
Qed.

Lemma toString2_binary (n : Z) :
  0 <= n -> binary (JS.toString 2 (JS.Num n)) = true.
Proof. intros Hn. rewrite toString2_nat by lia. now apply nat_digits2_binary. Qed.

Lemma toString2_value (n : Z) :
  0 <= n -> value (JS.toString 2 (JS.Num n)) = n.
Proof.
  intros Hn. rewrite toString2_nat by lia.
  apply nat_digits2_value. split; [lia | now apply digits_fuel_enough].
Qed.

Lemma toString2_nonempty (n : Z) :
  0 <= n -> (0 < String.length (JS.toString 2 (JS.Num n)))%nat.
Proof. intros Hn. rewrite toString2_nat by lia. apply nat_digits_nonempty. Qed.

Lemma toString2_length_le (n : Z) (k : nat) :
  0 <= n < 2 ^ Z.of_nat k -> (1 <= k)%nat ->
  (String.length (JS.toString 2 (JS.Num n)) <= k)%nat.
Proof.
  intros Hn Hk. rewrite toString2_nat by lia.
  apply nat_digits_length_le; [lia | assumption | assumption].
Qed.

(** ** Big-endian representations *)

Lemma length_be_bits (w : nat) (n : Z) : String.length (be_bits w n) = w.
Proof. induction w as [|w IH]; simpl; [reflexivity | now rewrite IH]. Qed.

Lemma binary_be_bits (w : nat) (n : Z) : binary (be_bits w n) = true.
Proof.
  induction w as [|w IH]; simpl; [reflexivity|].
  rewrite IH. now destruct (Z.testbit n (Z.of_nat w)).
Qed.

Lemma mod_pow2_succ (n : Z) (w : nat) :
  n mod 2 ^ Z.of_nat (S w)
  = (if Z.testbit n (Z.of_nat w) then 2 ^ Z.of_nat w else 0)
    + n mod 2 ^ Z.of_nat w.
Proof.
  rewrite Nat2Z.inj_succ, Z.pow_succ_r, Z.mul_comm by lia.
  rewrite Z.rem_mul_r by lia.
  rewrite <- Z.testbit_spec' by lia.
  destruct (Z.testbit n (Z.of_nat w)); simpl Z.b2z; lia.
Qed.

Lemma value_be_bits (w : nat) (n : Z) :
  value (be_bits w n) = n mod 2 ^ Z.of_nat w.
Proof.
  induction w as [|w IH].
  - simpl. change (2 ^ Z.of_nat 0) with 1. now rewrite Z.mod_1_r.
  - rewrite mod_pow2_succ. simpl. rewrite IH, length_be_bits.
    now destruct (Z.testbit n (Z.of_nat w)).
Qed.

Lemma be_bits_low (w m : nat) (n : Z) :
  (w <= m)%nat -> be_bits w (n mod 2 ^ Z.of_nat m) = be_bits w n.
Proof.
  induction w as [|w IH]; intros Hw; simpl; [reflexivity|].
  rewrite IH by lia. now rewrite Z.mod_pow2_bits_low by lia.
Qed.

Lemma be_bits_value (s : string) :
  binary s = true -> be_bits (String.length s) (value s) = s.
Proof.
  induction s as [|x s IH]; intros Hb; [reflexivity|].
  simpl in Hb. apply andb_true_iff in Hb. destruct Hb as [Hx Hs].
  pose proof (value_bounds s) as Hv.
  simpl String.length. simpl be_bits. f_equal.
  - simpl value.
    assert (Hbit : Z.b2z (Z.testbit
              ((if Ascii.eqb x "1" then 2 ^ Z.of_nat (String.length s) else 0)
               + value s) (Z.of_nat (String.length s)))
            = Z.b2z (Ascii.eqb x "1")).
    { rewrite Z.testbit_spec' by lia.
      destruct (Ascii.eqb x "1"); simpl Z.b2z.
      - rewrite <- (Z.mul_1_l (2 ^ _)) at 1.
        rewrite Z.div_add_l, Z.div_small by lia. reflexivity.
      - rewrite Z.add_0_l, Z.div_small by lia. reflexivity. }
    destruct (is_bit_cases x Hx) as [-> | ->];
      destruct (Z.testbit _ _); simpl in Hbit |- *; congruence.
  - simpl value. rewrite <- (be_bits_low _ (String.length s)) by lia.
    replace (((if Ascii.eqb x "1" then 2 ^ Z.of_nat (String.length s) else 0)
              + value s) mod 2 ^ Z.of_nat (String.length s)) with (value s).
    + now apply IH.
    + destruct (Ascii.eqb x "1").
      * rewrite <- (Z.mul_1_l (2 ^ _)) at 1.
        rewrite Z.add_comm, Z.mod_add, Z.mod_small by lia. reflexivity.
      * rewrite Z.add_0_l, Z.mod_small by lia. reflexivity.
Qed.

(** A binary string is determined by its length and its value. *)
Lemma binary_by_value (s : string) (w : nat) (n : Z) :
  binary s = true -> String.length s = w -> value s = n mod 2 ^ Z.of_nat w ->
  s = be_bits w n.
Proof.
  intros Hb Hl Hv. rewrite <- (be_bits_value s Hb), Hl, Hv.
  apply be_bits_low. lia.
Qed.

Lemma word32_iff (s : string) :
  word32 s = true <-> String.length s = 32%nat /\ binary s = true.
Proof.
  unfold word32. rewrite andb_true_iff, Nat.eqb_eq. reflexivity.
Qed.

Lemma word32_be_bits (n : Z) : word32 (be_bits 32 n) = true.
Proof.
  apply word32_iff. split; [apply length_be_bits | apply binary_be_bits].
Qed.

Lemma word32_value (s : string) :
  word32 s = true -> s = be_bits 32 (value s) /\ 0 <= value s < 2 ^ 32.
Proof.
  intros H. apply word32_iff in H. destruct H as [Hl Hb]. split.
  - rewrite <- Hl. symmetry. now apply be_bits_value.
  - pose proof (value_bounds s) as Hv. now rewrite Hl in Hv.
Qed.

(** ** [substr] *)

Lemma length_substr_from (k : nat) (s : string) :
  String.length (JS.substr_from k s) = (String.length s - k)%nat.
Proof.
  revert s. induction k as [|k IH]; intros s; simpl.
  - lia.
  - destruct s as [|x s]; simpl; [reflexivity | apply IH].
Qed.

Lemma binary_substr_from (k : nat) (s : string) :
  binary s = true -> binary (JS.substr_from k s) = true.
Proof.
  revert s. induction k as [|k IH]; intros s Hb; simpl; [assumption|].
  destruct s as [|x s]; [reflexivity|].
  simpl in Hb. apply andb_true_iff in Hb. now apply IH.
Qed.

(** Cutting characters off the front reduces the value modulo a power of
    two: this is where [Utils.add] wraps around. *)
Lemma value_substr_from (k : nat) (s : string) :
  (k <= String.length s)%nat ->
  value (JS.substr_from k s)
  = value s mod 2 ^ Z.of_nat (String.length s - k).
Proof.
  revert s. induction k as [|k IH]; intros s Hk.
  - simpl JS.substr_from. rewrite Nat.sub_0_r, Z.mod_small; [reflexivity|].
    apply value_bounds.
  - destruct s as [|x s]; [simpl in Hk; lia|].
    simpl in Hk. simpl JS.substr_from. simpl String.length.
    rewrite IH by lia. simpl value.
    replace (S (String.length s) - S k)%nat with (String.length s - k)%nat by lia.
    destruct (Ascii.eqb x "1"); [|now rewrite Z.add_0_l].
    replace (Z.of_nat (String.length s))
      with (Z.of_nat k + Z.of_nat (String.length s - k)) at 1 by lia.
    rewrite Z.pow_add_r, Z.add_comm, Z.mod_add by lia. reflexivity.
Qed.

Lemma length_substring0 (n : nat) (s : string) :
  String.length (String.substring 0 n s) = Nat.min n (String.length s).
Proof.
  revert s. induction n as [|n IH]; intros s.
  - destruct s; reflexivity.
  - destruct s as [|x s]; simpl; [reflexivity | now rewrite IH].
Qed.

Lemma binary_substring0 (n : nat) (s : string) :
  binary s = true -> binary (String.substring 0 n s) = true.
Proof.
  revert s. induction n as [|n IH]; intros s Hb.
  - destruct s; reflexivity.
  - destruct s as [|x s]; simpl; [reflexivity|].
    simpl in Hb. apply andb_true_iff in Hb. destruct Hb as [Hx Hs].
    now rewrite Hx, IH.
Qed.

Lemma substring0_substr_from (n : nat) (s : string) :
  String.substring 0 n s ++ JS.substr_from n s = s.
Proof.
  revert s. induction n as [|n IH]; intros s.
  - destruct s; reflexivity.
  - destruct s as [|x s]; simpl; [reflexivity | now rewrite IH].
Qed.

(** ** [Utils.add] *)

(** Left-padding with '0' or cutting on the left, as [Utils.add] does with
    the digits of the sum, yields the representation of the sum modulo
    [2 ^ w]. *)
Lemma add_wraps (w1 w2 : string) (w : nat) :
  binary w1 = true -> binary w2 = true ->
  (0 < String.length w1)%nat -> (0 < String.length w2)%nat ->
  Z.of_nat w < 4294967295 ->
  Utils.add w1 w2 (Z.of_nat w)
  = Some (be_bits w ((value w1 + value w2) mod 2 ^ Z.of_nat w)).
Proof.
  intros B1 B2 L1 L2 Hw. unfold Utils.add.
  rewrite !parseInt2_binary by assumption. simpl JS.plus.
  pose proof (value_bounds w1) as V1. pose proof (value_bounds w2) as V2.
  set (n := value w1 + value w2). assert (Hn : 0 <= n) by (unfold n; lia).
  pose proof (toString2_binary n Hn) as Bb.
  pose proof (toString2_value n Hn) as Vb.
  pose proof (toString2_nonempty n Hn) as Lb.
  set (bs := JS.toString 2 (JS.Num n)) in *.
  pose proof (value_bounds bs) as Vbs. rewrite Vb in Vbs.
  destruct (Z.ltb_spec (Z.of_nat (String.length bs)) (Z.of_nat w)) as [Hlt|Hge].
  - rewrite getStringXTime_repeats by lia. cbn [bind]. f_equal.
    assert (Hsmall : n < 2 ^ Z.of_nat w).
    { apply Z.lt_le_trans with (1 := proj2 Vbs).
      apply Z.pow_le_mono_r; lia. }
    apply binary_by_value.
    + now rewrite binary_append, binary_zeros.
    + rewrite length_append, length_replicate1. lia.
    + rewrite value_append, value_zeros, Vb, Z.mod_mod by lia.
      rewrite Z.mod_small by lia. lia.
  - destruct (Z.gtb_spec (Z.of_nat (String.length bs)) (Z.of_nat w)) as [Hgt|Hle].
    + f_equal. apply binary_by_value.
      * now apply binary_substr_from.
      * rewrite length_substr_from. lia.
      * rewrite value_substr_from by lia. rewrite Vb, Z.mod_mod by lia.
        f_equal. f_equal. lia.
    + f_equal. apply binary_by_value; [assumption | lia |].
      rewrite Vb, Z.mod_mod by lia.
      replace w with (String.length bs) by lia.
      rewrite Z.mod_small by lia. reflexivity.
Qed.

Lemma word32_nonempty (s : string) :
  word32 s = true -> (0 < String.length s)%nat.
Proof. intros H. apply word32_iff in H. lia. Qed.

Lemma add32_spec (w1 w2 : string) :
  word32 w1 = true -> word32 w2 = true ->
  Utils.add w1 w2 32 = Some (be_bits 32 (add32 (value w1) (value w2))).
Proof.
  intros H1 H2.
  pose proof (word32_nonempty _ H1). pose proof (word32_nonempty _ H2).
  apply word32_iff in H1. apply word32_iff in H2.
  apply (add_wraps w1 w2 32); try tauto. reflexivity.
Qed.

(** ** The bitwise operators *)

Lemma bitwise_be_bits (test : option ascii -> option ascii -> bool)
  (g : bool -> bool -> bool) (op : Z -> Z -> Z) (w : nat) (x y : Z) :
  (forall p q, test (Some (bit_char p)) (Some (bit_char q)) = g p q) ->
  (forall i, Z.testbit (op x y) i = g (Z.testbit x i) (Z.testbit y i)) ->
  Utils.bitwise test (be_bits w x) (be_bits w y) = be_bits w (op x y).
Proof.
  intros Ht Hop. unfold Utils.bitwise.
  rewrite !length_be_bits, Nat.max_id.
  induction w as [|w IH]; simpl; [reflexivity|].
  now rewrite Ht, Hop, IH.
Qed.

Lemma xor_be_bits (w : nat) (x y : Z) :
  Utils.xor (be_bits w x) (be_bits w y) = be_bits w (Z.lxor x y).
Proof.
  apply bitwise_be_bits with (g := xorb).
  - now intros [] [].
  - apply Z.lxor_spec.
Qed.

Lemma and_be_bits (w : nat) (x y : Z) :
  Utils.and (be_bits w x) (be_bits w y) = be_bits w (Z.land x y).
Proof.
  apply bitwise_be_bits with (g := andb).
  - now intros [] [].
  - apply Z.land_spec.
Qed.

Lemma or_be_bits (w : nat) (x y : Z) :
  Utils.or (be_bits w x) (be_bits w y) = be_bits w (Z.lor x y).
Proof.
  apply bitwise_be_bits with (g := orb).
  - now intros [] [].
  - apply Z.lor_spec.
Qed.

Lemma not_be_bits (w : nat) (x : Z) :
  Utils.not (be_bits w x) = be_bits w (Z.lnot x).
Proof.
  induction w as [|w IH]; simpl; [reflexivity|].
  rewrite IH, Z.lnot_spec by lia.
  now destruct (Z.testbit x (Z.of_nat w)).
Qed.

(** ** [Utils.rotate] *)

Lemma be_bits_ext (w : nat) (x y : Z) :
  (forall i, 0 <= i < Z.of_nat w -> Z.testbit x i = Z.testbit y i) ->
  be_bits w x = be_bits w y.
Proof.
  induction w as [|w IH]; intros H; simpl; [reflexivity|].
  rewrite H by lia. rewrite IH; [reflexivity|].
  intros i Hi. apply H. lia.
Qed.

Lemma be_bits_snoc (w : nat) (n : Z) :
  be_bits (S w) n = be_bits w (n / 2) ++ String (bit_char (Z.testbit n 0)) "".
Proof.
  induction w as [|w IH]; [reflexivity|].
  change (be_bits (S (S w)) n)
    with (String (bit_char (Z.testbit n (Z.of_nat (S w)))) (be_bits (S w) n)).
  rewrite IH. simpl. f_equal. f_equal.
  rewrite Z.div2_bits, Nat2Z.inj_succ by lia. reflexivity.
Qed.

Lemma testbit_above (n : Z) (x i : Z) :
  0 <= x < 2 ^ n -> n <= i -> Z.testbit x i = false.
Proof.
  intros Hx Hi. destruct (Z.le_gt_cases 0 n) as [Hn|Hn].
  - rewrite <- (Z.mod_small x (2 ^ n)) by lia.
    apply Z.mod_pow2_bits_high. lia.
  - rewrite Z.pow_neg_r in Hx by lia. lia.
Qed.

Lemma testbit_rotl32 (k x i : Z) :
  0 <= x < 2 ^ 32 -> 0 <= k <= 32 -> 0 <= i < 32 ->
  Z.testbit (rotl32 k x) i = Z.testbit x ((i - k) mod 32).
Proof.
  intros Hx Hk Hi. unfold rotl32.
  rewrite Z.mod_pow2_bits_low, Z.lor_spec by lia.
  rewrite Z.shiftl_spec, Z.shiftr_spec by lia.
  destruct (Z.lt_ge_cases i k) as [Hlt|Hge].
  - rewrite (Z.testbit_neg_r x (i - k)) by lia. simpl orb.
    f_equal. apply Z.mod_unique with (q := -1); lia.
  - rewrite (testbit_above 32 x (i + (32 - k))) by lia.
    rewrite orb_false_r. f_equal. symmetry. apply Z.mod_small. lia.
Qed.

Lemma rotl32_range (k x : Z) : 0 <= rotl32 k x < 2 ^ 32.
Proof. unfold rotl32. apply Z.mod_pos_bound. reflexivity. Qed.

Lemma rotate1_be_bits (x : Z) :
  0 <= x < 2 ^ 32 ->
  Utils.rotate1 (be_bits 32 x) = be_bits 32 (rotl32 1 x).
Proof.
  intros Hx.
  change (be_bits 32 x)
    with (String (bit_char (Z.testbit x (Z.of_nat 31))) (be_bits 31 x)).
  unfold Utils.rotate1. rewrite (be_bits_snoc 31). f_equal.
  - apply be_bits_ext. intros i Hi.
    rewrite Z.div2_bits by lia.
    rewrite testbit_rotl32 by lia.
    f_equal. rewrite Z.mod_small by lia. lia.
  - rewrite testbit_rotl32 by lia. reflexivity.
Qed.

(** The textual rotation is the rotation of the 32-bit value to the left. *)
Lemma rotate_be_bits (k : nat) (x : Z) :
  (k <= 32)%nat -> 0 <= x < 2 ^ 32 ->
  Utils.rotate (be_bits 32 x) k = be_bits 32 (rotl32 (Z.of_nat k) x).
Proof.
  revert x. induction k as [|k IH]; intros x Hk Hx.
  - cbn [Utils.rotate]. apply be_bits_ext. intros i Hi.
    rewrite testbit_rotl32 by lia.
    f_equal. rewrite Z.sub_0_r. symmetry. apply Z.mod_small. lia.
  - cbn [Utils.rotate]. rewrite rotate1_be_bits by assumption.
    rewrite IH by (try lia; apply rotl32_range).
    apply be_bits_ext. intros i Hi.
    rewrite !testbit_rotl32
      by (try lia; try apply rotl32_range; apply Z.mod_pos_bound; lia).
    f_equal. rewrite Zminus_mod_idemp_l. f_equal. lia.
Qed.

Lemma length_rotate1 (s : string) :
  String.length (Utils.rotate1 s) = String.length s.
Proof.
  destruct s as [|x s]; [reflexivity|].
  simpl. rewrite length_append. simpl. lia.
Qed.

Lemma binary_rotate1 (s : string) :
  binary s = true -> binary (Utils.rotate1 s) = true.
Proof.
  destruct s as [|x s]; [reflexivity|].
  simpl. intros H. apply andb_true_iff in H. destruct H as [Hx Hs].
  now rewrite binary_append, Hs; simpl; rewrite Hx.
Qed.

Lemma word32_rotate (s : string) (k : nat) :
  word32 s = true -> word32 (Utils.rotate s k) = true.
Proof.
  revert s. induction k as [|k IH]; intros s H; simpl; [assumption|].
  apply IH. apply word32_iff in H. apply word32_iff.
  rewrite length_rotate1. split; [tauto | now apply binary_rotate1].
Qed.

(** ** Operators on registers *)

Lemma small_by_bits (m : Z) :
  0 <= m -> (forall i, 32 <= i -> Z.testbit m i = false) -> m mod 2 ^ 32 = m.
Proof.
  intros Hm H. apply Z.bits_inj'. intros i Hi.
  destruct (Z.lt_ge_cases i 32).
  - apply Z.mod_pow2_bits_low. lia.
  - rewrite Z.mod_pow2_bits_high by lia. symmetry. now apply H.
Qed.

Lemma word32_repr (s : string) :
  word32 s = true ->
  exists x, 0 <= x < 2 ^ 32 /\ s = be_bits 32 x /\ value s = x.
Proof.
  intros H. destruct (word32_value s H) as [E R].
  exists (value s). auto.
Qed.

Lemma value_xor (s t : string) :
  word32 s = true -> word32 t = true ->
  word32 (Utils.xor s t) = true
  /\ value (Utils.xor s t) = Z.lxor (value s) (value t).
Proof.
  intros Hs Ht.
  destruct (word32_repr s Hs) as (x & Rx & Es & Vx).
  destruct (word32_repr t Ht) as (y & Ry & Et & Vy).
  rewrite Vx, Vy. subst s t.
  rewrite !xor_be_bits. split; [apply word32_be_bits|].
  rewrite value_be_bits. apply small_by_bits.
  - apply Z.lxor_nonneg. lia.
  - intros i Hi. rewrite Z.lxor_spec.
    now rewrite (testbit_above 32 x), (testbit_above 32 y).
Qed.

Lemma value_and (s t : string) :
  word32 s = true -> word32 t = true ->
  word32 (Utils.and s t) = true
  /\ value (Utils.and s t) = Z.land (value s) (value t).
Proof.
  intros Hs Ht.
  destruct (word32_repr s Hs) as (x & Rx & Es & Vx).
  destruct (word32_repr t Ht) as (y & Ry & Et & Vy).
  rewrite Vx, Vy. subst s t.
  rewrite !and_be_bits. split; [apply word32_be_bits|].
  rewrite value_be_bits. apply small_by_bits.
  - apply Z.land_nonneg. lia.
  - intros i Hi. rewrite Z.land_spec.
    now rewrite (testbit_above 32 x).
Qed.

Lemma value_or (s t : string) :
  word32 s = true -> word32 t = true ->
  word32 (Utils.or s t) = true
  /\ value (Utils.or s t) = Z.lor (value s) (value t).
Proof.
  intros Hs Ht.
  destruct (word32_repr s Hs) as (x & Rx & Es & Vx).
  destruct (word32_repr t Ht) as (y & Ry & Et & Vy).
  rewrite Vx, Vy. subst s t.
  rewrite !or_be_bits. split; [apply word32_be_bits|].
  rewrite value_be_bits. apply small_by_bits.
  - apply Z.lor_nonneg. lia.
  - intros i Hi. rewrite Z.lor_spec.
    now rewrite (testbit_above 32 x), (testbit_above 32 y).
Qed.

Lemma value_not (s : string) :
  word32 s = true ->
  word32 (Utils.not s) = true
  /\ value (Utils.not s) = 2 ^ 32 - 1 - value s.
Proof.
  intros Hs. destruct (word32_repr s Hs) as (x & Rx & Es & Vx).
  rewrite Vx. subst s.
  rewrite !not_be_bits. split; [apply word32_be_bits|].
  rewrite value_be_bits. unfold Z.lnot, Z.pred.
  symmetry. apply Z.mod_unique with (q := -1); lia.
Qed.

Lemma value_rotate (s : string) (k : nat) :
  word32 s = true -> (k <= 32)%nat ->
  value (Utils.rotate s k) = rotl32 (Z.of_nat k) (value s).
Proof.
  intros Hs Hk. destruct (word32_repr s Hs) as (x & Rx & Es & Vx).
  rewrite Vx. subst s.
  rewrite rotate_be_bits, value_be_bits by assumption.
  apply Z.mod_small. apply rotl32_range.
Qed.

Lemma value_add (s t : string) :
  word32 s = true -> word32 t = true ->
  exists r, Utils.add s t 32 = Some r /\ word32 r = true
            /\ value r = add32 (value s) (value t).
Proof.
  intros Hs Ht. eexists. split; [now apply add32_spec|].
  split; [apply word32_be_bits|].
  rewrite value_be_bits. unfold add32. apply Z.mod_mod. lia.
Qed.

(** ** The compression rounds *)

Lemma registers_ok_iff (r : Main.registers) :
  registers_ok r = true <->
  word32 (Main.a r) = true /\ word32 (Main.b r) = true
  /\ word32 (Main.c r) = true /\ word32 (Main.d r) = true
  /\ word32 (Main.e r) = true.
Proof. unfold registers_ok. rewrite !andb_true_iff. tauto. Qed.

Lemma hash_ok_iff (h : Main.hash) :
  hash_ok h = true <->
  word32 (Main.h0 h) = true /\ word32 (Main.h1 h) = true
  /\ word32 (Main.h2 h) = true /\ word32 (Main.h3 h) = true
  /\ word32 (Main.h4 h) = true.
Proof. unfold hash_ok. rewrite !andb_true_iff. tauto. Qed.

Lemma schedule_ok_iff (words : list string) :
  schedule_ok words = true <->
  List.length words = 80%nat /\ List.Forall (fun w => word32 w = true) words.
Proof.
  unfold schedule_ok.
  rewrite andb_true_iff, Nat.eqb_eq, List.forallb_forall, List.Forall_forall.
  reflexivity.
Qed.

Lemma word_at_ok (words : list string) (i : nat) :
  schedule_ok words = true -> (i < 80)%nat ->
  word32 (Main.word_at words i) = true.
Proof.
  intros H Hi. apply schedule_ok_iff in H. destruct H as [Hl Hf].
  rewrite List.Forall_forall in Hf. apply Hf.
  unfold Main.word_at. apply List.nth_In. lia.
Qed.

Lemma word32_round_k (i : nat) : word32 (Main.round_k i) = true.
Proof.
  unfold Main.round_k.
  destruct (i <? 20)%nat; [reflexivity|].
  destruct (i <? 40)%nat; [reflexivity|].
  destruct (i <? 60)%nat; reflexivity.
Qed.

Lemma word32_round_f (i : nat) (b c d : string) :
  word32 b = true -> word32 c = true -> word32 d = true ->
  word32 (Main.round_f i b c d) = true.
Proof.
  intros Hb Hc Hd. unfold Main.round_f.
  pose proof (proj1 (value_and b c Hb Hc)) as Hbc.
  pose proof (proj1 (value_and b d Hb Hd)) as Hbd.
  pose proof (proj1 (value_and c d Hc Hd)) as Hcd.
  pose proof (proj1 (value_xor b c Hb Hc)) as Xbc.
  pose proof (proj1 (value_not b Hb)) as Nb.
  destruct (i <? 20)%nat.
  { apply value_or; [assumption|]. now apply value_and. }
  destruct (i <? 40)%nat; [now apply value_xor|].
  destruct (i <? 60)%nat; [|now apply value_xor].
  apply value_xor; [|assumption]. now apply value_xor.
Qed.

(** The sum of one round, each addition wrapping at 32 bits. *)
Lemma round_tmp_spec (a f e k w : string) :
  word32 a = true -> word32 f = true -> word32 e = true ->
  word32 k = true -> word32 w = true ->
  exists tmp, Main.round_tmp a f e k w = Some tmp /\ word32 tmp = true
    /\ value tmp
       = (rotl32 5 (value a) + value f + value e + value k + value w)
         mod 2 ^ 32.
Proof.
  intros Ha Hf He Hk Hw. unfold Main.round_tmp.
  pose proof (word32_rotate a 5 Ha) as Hr.
  destruct (value_add _ _ Hr Hf) as (t1 & E1 & W1 & V1).
  destruct (value_add _ _ W1 He) as (t2 & E2 & W2 & V2).
  destruct (value_add _ _ W2 Hk) as (t3 & E3 & W3 & V3).
  destruct (value_add _ _ W3 Hw) as (t4 & E4 & W4 & V4).
  exists t4. rewrite E1. cbn [bind]. rewrite E2. cbn [bind].
  rewrite E3. cbn [bind]. split; [exact E4|]. split; [exact W4|].
  rewrite V4, V3, V2, V1, (value_rotate a 5 Ha) by lia.
  unfold add32. change (Z.of_nat 5) with 5.
  set (x := rotl32 5 (value a)).
  rewrite (Zplus_mod_idemp_l (x + value f)).
  rewrite (Zplus_mod_idemp_l (x + value f + value e)).
  rewrite (Zplus_mod_idemp_l (x + value f + value e + value k)).
  reflexivity.
Qed.

Lemma round_spec (words : list string) (r : Main.registers) (i : nat) :
  schedule_ok words = true -> registers_ok r = true -> (i < 80)%nat ->
  exists r', Main.round words r i = Some r' /\ registers_ok r' = true
    /\ value (Main.a r')
       = (rotl32 5 (value (Main.a r))
          + value (Main.round_f i (Main.b r) (Main.c r) (Main.d r))
          + value (Main.e r) + value (Main.round_k i)
          + value (Main.word_at words i)) mod 2 ^ 32
    /\ Main.b r' = Main.a r
    /\ Main.c r' = Utils.rotate (Main.b r) 30
    /\ Main.d r' = Main.c r
    /\ Main.e r' = Main.d r.
Proof.
  intros Hw Hr Hi. apply registers_ok_iff in Hr.
  destruct Hr as (Ha & Hb & Hc & Hd & He).
  destruct (round_tmp_spec (Main.a r)
              (Main.round_f i (Main.b r) (Main.c r) (Main.d r))
              (Main.e r) (Main.round_k i) (Main.word_at words i))
    as (tmp & E & W & V);
    auto using word32_round_f, word32_round_k, word_at_ok.
  unfold Main.round. rewrite E. cbn [bind]. eexists. split; [reflexivity|].
  cbn [Main.a Main.b Main.c Main.d Main.e]. split; [|tauto].
  apply registers_ok_iff. cbn [Main.a Main.b Main.c Main.d Main.e].
  auto using word32_rotate.
Qed.

Lemma foldM_app {A S : Type} (f : S -> A -> option S) (l1 l2 : list A) (s : S) :
  foldM f (l1 ++ l2)%list s = (s' <- foldM f l1 s ;; foldM f l2 s').
Proof.
  revert s. induction l1 as [|x l1 IH]; intros s; simpl; [reflexivity|].
  destruct (f s x) as [s'|]; simpl; [apply IH | reflexivity].
Qed.

Lemma rounds_succ (n : nat) (words : list string) (r : Main.registers) :
  Main.rounds (S n) words r
  = (r' <- Main.rounds n words r ;; Main.round words r' n).
Proof.
  unfold Main.rounds. rewrite List.seq_S, foldM_app. simpl.
  destruct (foldM (Main.round words) (List.seq 0 n) r) as [r'|]; simpl;
    [|reflexivity].
  now destruct (Main.round words r' n).
Qed.

(** The registers are words after any number of rounds of a block. *)
Lemma rounds_ok (n : nat) (words : list string) (r : Main.registers) :
  schedule_ok words = true -> registers_ok r = true -> (n <= 80)%nat ->
  exists r', Main.rounds n words r = Some r' /\ registers_ok r' = true.
Proof.
  intros Hw Hr. induction n as [|n IH]; intros Hn.
  - exists r. split; [reflexivity | assumption].
  - destruct IH as (r1 & E1 & R1); [lia|].
    destruct (round_spec words r1 n Hw R1) as (r2 & E2 & R2 & _); [lia|].
    exists r2. rewrite rounds_succ, E1. simpl. auto.
Qed.

Lemma process_chunk_spec (h : Main.hash) (words : list string) :
  hash_ok h = true -> schedule_ok words = true ->
  exists r h',
    Main.rounds 80 words
      (Main.Registers (Main.h0 h) (Main.h1 h) (Main.h2 h) (Main.h3 h)
         (Main.h4 h)) = Some r
    /\ registers_ok r = true
    /\ Main.process_chunk h words = Some h' /\ hash_ok h' = true
    /\ value (Main.h0 h') = (value (Main.h0 h) + value (Main.a r)) mod 2 ^ 32
    /\ value (Main.h1 h') = (value (Main.h1 h) + value (Main.b r)) mod 2 ^ 32
    /\ value (Main.h2 h') = (value (Main.h2 h) + value (Main.c r)) mod 2 ^ 32
    /\ value (Main.h3 h') = (value (Main.h3 h) + value (Main.d r)) mod 2 ^ 32
    /\ value (Main.h4 h') = (value (Main.h4 h) + value (Main.e r)) mod 2 ^ 32.
Proof.
  intros Hh Hw. pose proof Hh as Hh'. apply hash_ok_iff in Hh'.
  destruct Hh' as (H0 & H1 & H2 & H3 & H4).
  destruct (rounds_ok 80 words
              (Main.Registers (Main.h0 h) (Main.h1 h) (Main.h2 h)
                 (Main.h3 h) (Main.h4 h)) Hw) as (r & E & R);
    [apply registers_ok_iff; simpl; tauto | lia |].
  pose proof R as R'. apply registers_ok_iff in R'.
  destruct R' as (Ra & Rb & Rc & Rd & Re).
  destruct (value_add _ _ H0 Ra) as (n0 & E0 & W0 & V0).
  destruct (value_add _ _ H1 Rb) as (n1 & E1 & W1 & V1).
  destruct (value_add _ _ H2 Rc) as (n2 & E2 & W2 & V2).
  destruct (value_add _ _ H3 Rd) as (n3 & E3 & W3 & V3).
  destruct (value_add _ _ H4 Re) as (n4 & E4 & W4 & V4).
  exists r, (Main.Hash n0 n1 n2 n3 n4).
  split; [exact E|]. split; [exact R|]. split.
  { unfold Main.process_chunk. rewrite E. cbn [bind].
    rewrite E0. cbn [bind]. rewrite E1. cbn [bind]. rewrite E2. cbn [bind].
    rewrite E3. cbn [bind]. rewrite E4. reflexivity. }
  split; [apply hash_ok_iff; simpl; tauto|].
  cbn [Main.h0 Main.h1 Main.h2 Main.h3 Main.h4]. unfold add32 in *.
  repeat split; assumption.
Qed.

(** ** The message schedule *)

Lemma nth_error_word (words : list string) (i : nat) :
  words_ok words -> (i < List.length words)%nat ->
  exists w, List.nth_error words i = Some w /\ word32 w = true.
Proof.
  intros Hf Hi. destruct (List.nth_error words i) as [w|] eqn:E.
  - exists w. split; [reflexivity|].
    unfold words_ok in Hf. rewrite List.Forall_forall in Hf.
    apply Hf. eapply List.nth_error_In. eassumption.
  - apply List.nth_error_None in E. lia.
Qed.

Lemma recurrence_at_app (W ext : list string) (t : nat) :
  (t < List.length W)%nat -> recurrence_at W t ->
  recurrence_at (W ++ ext)%list t.
Proof.
  intros Ht (w3 & w8 & w14 & w16 & wt & E3 & E8 & E14 & E16 & Et & R).
  exists w3, w8, w14, w16, wt.
  rewrite !List.nth_error_app1 by lia. tauto.
Qed.

Lemma expand_loop_spec (n j : nat) (words : list string) :
  List.length words = j -> (16 <= j)%nat -> words_ok words ->
  (forall t, (16 <= t < j)%nat -> recurrence_at words t) ->
  exists W,
    Main.expand_loop n j words = Some W
    /\ List.length W = (j + n)%nat
    /\ words_ok W
    /\ List.firstn j W = words
    /\ (forall t, (16 <= t < j + n)%nat -> recurrence_at W t).
Proof.
  revert j words. induction n as [|n IH]; intros j words Hl Hj Hf Hrec.
  - exists words. simpl. rewrite Nat.add_0_r.
    repeat split; try assumption.
    rewrite <- Hl. apply List.firstn_all.
  - destruct (nth_error_word words (j - 3) Hf) as (w3 & E3 & W3); [lia|].
    destruct (nth_error_word words (j - 8) Hf) as (w8 & E8 & W8); [lia|].
    destruct (nth_error_word words (j - 14) Hf) as (w14 & E14 & W14); [lia|].
    destruct (nth_error_word words (j - 16) Hf) as (w16 & E16 & W16); [lia|].
    cbn [Main.expand_loop]. rewrite E3, E8, E14, E16. cbn [bind].
    set (x := Utils.xor (Utils.xor (Utils.xor w3 w8) w14) w16).
    destruct (value_xor w3 w8 W3 W8) as [X1 V1].
    destruct (value_xor _ w14 X1 W14) as [X2 V2].
    destruct (value_xor _ w16 X2 W16) as [X3 V3].
    fold x in X3, V3.
    assert (Hnew : recurrence_at (words ++ [Utils.rotate x 1])%list j).
    { exists w3, w8, w14, w16, (Utils.rotate x 1).
      rewrite !List.nth_error_app1 by lia.
      rewrite List.nth_error_app2, Hl, Nat.sub_diag by lia.
      repeat split; try assumption; try reflexivity.
      rewrite (value_rotate x 1 X3) by lia.
      now rewrite V3, V2, V1. }
    destruct (IH (S j) (words ++ [Utils.rotate x 1])%list)
      as (W & E & L & F & P & R).
    + rewrite List.length_app. simpl. lia.
    + lia.
    + apply List.Forall_app. split; [assumption|].
      constructor; [|constructor]. now apply word32_rotate.
    + intros t Ht. destruct (Nat.eq_dec t j) as [-> | Hne]; [exact Hnew|].
      apply recurrence_at_app; [lia|]. apply Hrec. lia.
    + exists W. split; [exact E|]. split; [lia|]. split; [exact F|].
      split.
      * replace j with (Nat.min j (S j)) at 1 by lia.
        rewrite <- List.firstn_firstn.
        rewrite P, List.firstn_app, Hl, Nat.sub_diag. simpl.
        rewrite List.app_nil_r, <- Hl. apply List.firstn_all.
      * intros t Ht. apply R. lia.
Qed.

Lemma expand_spec (block : list string) :
  List.length block = 16%nat -> words_ok block ->
  exists W,
    Main.expand block = Some W
    /\ schedule_ok W = true
    /\ List.firstn 16 W = block
    /\ (forall t, (16 <= t < 80)%nat -> recurrence_at W t).
Proof.
  intros Hl Hf. unfold Main.expand. rewrite Hl.
  destruct (expand_loop_spec (80 - 16) 16 block Hl) as (W & E & L & F & P & R);
    [lia | assumption | intros t Ht; lia |].
  exists W. split; [exact E|]. split.
  - apply schedule_ok_iff. split; [exact L | exact F].
  - split; [exact P | exact R].
Qed.

(** ** Steps 1 to 5: the message as a binary string *)

Lemma toString2_length (n : Z) :
  0 <= n ->
  Z.of_nat (String.length (JS.toString 2 (JS.Num n))) = Z.log2 n + 1.
Proof.
  intros Hn.
  pose proof (toString2_nonempty n Hn) as Hne.
  pose proof (toString2_value n Hn) as Hv.
  pose proof (value_bounds (JS.toString 2 (JS.Num n))) as Hb. rewrite Hv in Hb.
  pose proof (Z.log2_nonneg n) as Hlog.
  assert (Hup : (String.length (JS.toString 2 (JS.Num n))
                 <= Z.to_nat (Z.log2 n + 1))%nat).
  { apply toString2_length_le; [|lia].
    rewrite Z2Nat.id by lia. split; [lia|].
    destruct (Z.eq_dec n 0) as [-> | Hz]; [reflexivity|].
    apply Z.log2_spec. lia. }
  destruct (Z.eq_dec n 0) as [-> | Hz].
  - change (Z.log2 0) with 0 in *. lia.
  - assert (Z.log2 n < Z.of_nat (String.length (JS.toString 2 (JS.Num n)))).
    { apply (Z.pow_lt_mono_r_iff 2); [lia | lia |].
      apply Z.le_lt_trans with n; [|lia]. apply Z.log2_spec. lia. }
    lia.
Qed.

Lemma pad8_spec (s : string) :
  binary s = true ->
  exists p, Main.pad8 s = Some p /\ binary p = true /\ value p = value s
    /\ Z.of_nat (String.length p) = Z.max 8 (Z.of_nat (String.length s)).
Proof.
  intros Hb. unfold Main.pad8.
  destruct (Nat.ltb_spec (String.length s) 8) as [Hlt|Hge].
  - rewrite getStringXTime_repeats by lia. cbn [bind].
    eexists. split; [reflexivity|].
    rewrite binary_append, binary_zeros, value_append, value_zeros.
    rewrite length_append, length_replicate1. cbn [andb].
    repeat split; try assumption; lia.
  - exists s. repeat split; try assumption; lia.
Qed.

Lemma encode_unit_spec (c : N) :
  exists p, Main.pad8 (JS.toString 2 (JS.Num (Z.of_N c))) = Some p
    /\ binary p = true /\ value p = Z.of_N c
    /\ Z.of_nat (String.length p) = code_unit_bits c
    /\ (is_byte c = true -> p = byte_bits c).
Proof.
  assert (Hc : 0 <= Z.of_N c) by lia.
  destruct (pad8_spec _ (toString2_binary _ Hc)) as (p & E & B & V & L).
  rewrite toString2_value in V by assumption.
  rewrite toString2_length in L by assumption.
  exists p. repeat split; try assumption.
  intros Hbyte. unfold is_byte in Hbyte. apply N.ltb_lt in Hbyte.
  assert (Hlog : Z.log2 (Z.of_N c) + 1 <= 8).
  { destruct (Z.eq_dec (Z.of_N c) 0) as [-> | Hz]; [cbv; discriminate|].
    assert (Z.log2 (Z.of_N c) < 8); [|lia].
    apply Z.log2_lt_pow2; [lia|]. change (2 ^ 8) with 256. lia. }
  apply binary_by_value; [assumption | lia |].
  rewrite V. symmetry. apply Z.mod_small. change (2 ^ Z.of_nat 8) with 256. lia.
Qed.

Lemma concat_empty_cons (x : string) (l : list string) :
  String.concat "" (x :: l) = x ++ String.concat "" l.
Proof.
  destruct l as [|y l]; simpl; [now rewrite append_nil_r | reflexivity].
Qed.

Lemma step4_spec (str : JS.source_string) :
  exists l, Main.step4_ascii_binary_8_length str = Some l
    /\ binary (String.concat "" l) = true
    /\ Z.of_nat (String.length (String.concat "" l)) = message_bits str
    /\ (List.forallb is_byte str = true -> l = List.map byte_bits str).
Proof.
  unfold Main.step4_ascii_binary_8_length, Main.step3_ascii_binary,
    Main.step2_to_ascii_code.
  induction str as [|c str IH].
  - exists []. repeat split.
  - destruct IH as (l & E & B & L & Hbytes).
    destruct (encode_unit_spec c) as (p & Ep & Bp & Vp & Lp & Hbyte).
    exists (p :: l). cbn [List.map mapM]. rewrite Ep. cbn [bind].
    rewrite E. cbn [bind]. split; [reflexivity|].
    rewrite concat_empty_cons, binary_append, length_append, Bp, B.
    split; [reflexivity|]. split.
    + cbn [message_bits List.fold_right]. fold (message_bits str). lia.
    + cbn [List.forallb]. intros H. apply andb_true_iff in H.
      destruct H as [Hc Hs]. now rewrite Hbyte, Hbytes.
Qed.

Lemma step5_spec (str : JS.source_string) :
  exists step5, Main.step5_combine_str str = Some step5
    /\ binary step5 = true
    /\ Z.of_nat (String.length step5) = message_bits str
    /\ (List.forallb is_byte str = true ->
        step5 = String.concat "" (List.map byte_bits str)).
Proof.
  destruct (step4_spec str) as (l & E & B & L & Hbytes).
  exists (String.concat "" l). unfold Main.step5_combine_str.
  rewrite E. cbn [bind]. repeat split; try assumption.
  intros H. now rewrite Hbytes.
Qed.

Lemma message_bits_bytes (str : JS.source_string) :
  List.forallb is_byte str = true ->
  message_bits str = 8 * Z.of_nat (List.length str).
Proof.
  induction str as [|c str IH]; intros H; [reflexivity|].
  cbn [List.forallb] in H. apply andb_true_iff in H. destruct H as [Hc Hs].
  cbn [message_bits List.fold_right List.length]. fold (message_bits str).
  rewrite IH by assumption.
  unfold is_byte in Hc. apply N.ltb_lt in Hc.
  assert (Hlog : Z.log2 (Z.of_N c) + 1 <= 8).
  { destruct (Z.eq_dec (Z.of_N c) 0) as [-> | Hz]; [cbv; discriminate|].
    assert (Z.log2 (Z.of_N c) < 8); [|lia].
    apply Z.log2_lt_pow2; [lia|]. change (2 ^ 8) with 256. lia. }
  unfold code_unit_bits. lia.
Qed.

(** ** Steps 6 to 8: padding *)

Lemma step7_spec (str : string) :
  exists k, Main.step7_modulo_512_is_448 str = Some (str ++ replicate k "0")
    /\ (Z.of_nat (String.length str) + Z.of_nat k) mod 512 = 448.
Proof.
  unfold Main.step7_modulo_512_is_448.
  set (len := Z.of_nat (String.length str)).
  pose proof (Z.mod_pos_bound len 512 ltac:(lia)) as Hm.
  pose proof (Z.div_mod len 512 ltac:(lia)) as Hd.
  destruct (Z.ltb_spec (len mod 512) 448) as [Hlt|Hge].
  - rewrite getStringXTime_repeats by lia. cbn [bind].
    eexists. split; [reflexivity|].
    rewrite Z2Nat.id by lia.
    symmetry. apply Z.mod_unique with (q := len / 512); lia.
  - destruct (Z.gtb_spec (len mod 512) 448) as [Hgt|Hle].
    + rewrite getStringXTime_repeats by lia. cbn [bind].
      eexists. split; [reflexivity|].
      rewrite Z2Nat.id by lia.
      symmetry. apply Z.mod_unique with (q := len / 512 + 1); lia.
    + exists 0%nat. cbn [replicate]. rewrite append_nil_r.
      split; [reflexivity|]. rewrite Z.add_0_r. lia.
Qed.

Lemma step8_spec (str step5 : string) :
  Z.of_nat (String.length step5) < 2 ^ 64 ->
  Main.step8_append_step5_length str step5
  = Some (str ++ be_bits 64 (Z.of_nat (String.length step5))).
Proof.
  intros Hlen. unfold Main.step8_append_step5_length.
  set (n := Z.of_nat (String.length step5)) in *.
  assert (Hn : 0 <= n) by (unfold n; lia).
  pose proof (toString2_length_le n 64 ltac:(split; [lia | exact Hlen])
                ltac:(lia)) as Hle.
  rewrite getStringXTime_repeats by lia. cbn [bind]. f_equal. f_equal.
  apply binary_by_value.
  - now rewrite binary_append, binary_zeros, toString2_binary.
  - rewrite length_append, length_replicate1. lia.
  - rewrite value_append, value_zeros, toString2_value by assumption.
    rewrite Z.mod_small by (split; [lia | exact Hlen]). lia.
Qed.

(** From 2^64 bits on, the length takes 65 binary digits or more: with 65
    nothing is prepended and the field is 65 characters long, with more
    [new Array] is given a negative length and throws. *)
Lemma step8_65_bits (str step5 : string) :
  2 ^ 64 <= Z.of_nat (String.length step5) < 2 ^ 65 ->
  exists field,
    Main.step8_append_step5_length str step5 = Some (str ++ field)
    /\ String.length field = 65%nat.
Proof.
  intros Hlen. unfold Main.step8_append_step5_length.
  set (n := Z.of_nat (String.length step5)) in *.
  assert (Hlog : Z.log2 n = 64) by (apply Z.log2_unique; lia).
  pose proof (toString2_length n ltac:(lia)) as L. rewrite Hlog in L.
  replace (64 - Z.of_nat (String.length (JS.toString 2 (JS.Num n))))
    with (-1) by lia.
  exists (JS.toString 2 (JS.Num n)). split; [reflexivity | lia].
Qed.

Lemma step8_throws (str step5 : string) :
  2 ^ 65 <= Z.of_nat (String.length step5) ->
  Main.step8_append_step5_length str step5 = None.
Proof.
  intros Hlen. unfold Main.step8_append_step5_length.
  set (n := Z.of_nat (String.length step5)) in *.
  assert (Hlog : 65 <= Z.log2 n) by (apply Z.log2_le_pow2; lia).
  pose proof (toString2_length n ltac:(lia)) as L.
  unfold Utils.getStringXTime, JS.array_join.
  destruct (Z.leb_spec 0
              (64 - Z.of_nat (String.length (JS.toString 2 (JS.Num n))) + 1));
    [lia | reflexivity].
Qed.

Lemma padded_spec (str : JS.source_string) :
  message_bits str < 2 ^ 64 ->
  exists step5 k,
    Main.step5_combine_str str = Some step5
    /\ binary step5 = true
    /\ Z.of_nat (String.length step5) = message_bits str
    /\ Main.padded str
       = Some (((step5 ++ "1") ++ replicate k "0")
               ++ be_bits 64 (message_bits str))
    /\ (message_bits str + 1 + Z.of_nat k) mod 512 = 448.
Proof.
  intros Hlen. destruct (step5_spec str) as (step5 & E5 & B5 & L5 & _).
  destruct (step7_spec (Main.step6_append_1 step5)) as (k & E7 & M7).
  exists step5, k. split; [exact E5|]. split; [exact B5|]. split; [exact L5|].
  unfold Main.padded. rewrite E5. cbn [bind]. rewrite E7. cbn [bind].
  rewrite step8_spec by lia. rewrite L5. split; [reflexivity|].
  unfold Main.step6_append_1 in M7. rewrite length_append in M7.
  rewrite <- M7. f_equal. simpl String.length. lia.
Qed.

(** ** Steps 9 and 10: splitting *)

(** With fuel for its length, a string of [q] times [size] characters
    splits into [q] pieces of [size] characters each. *)
Lemma split_loop_spec (q size fuel : nat) (s : string) :
  (0 < size)%nat -> String.length s = (q * size)%nat ->
  (String.length s <= fuel)%nat ->
  List.length (Main.split_loop fuel size s) = q
  /\ List.Forall (fun p => String.length p = size
                           /\ (binary s = true -> binary p = true))
       (Main.split_loop fuel size s)
  /\ String.concat "" (Main.split_loop fuel size s) = s.
Proof.
  intros Hsize. revert fuel s. induction q as [|q IH]; intros fuel s Hl Hf.
  - assert (Hs : s = "") by (destruct s; [reflexivity | simpl in Hl; lia]).
    subst s. destruct fuel; simpl; repeat split; constructor.
  - destruct fuel as [|fuel]; [simpl in Hl; lia|].
    cbn [Main.split_loop].
    destruct (Nat.ltb_spec 0 (String.length s)) as [Hpos|Hz]; [|simpl in Hl; lia].
    pose proof (substring0_substr_from size s) as Hcut.
    pose proof (length_substring0 size s) as Hhead.
    pose proof (length_substr_from size s) as Htail.
    destruct (IH fuel (JS.substr_from size s)) as (L & F & C);
      [simpl in Hl; lia | lia |].
    split; [simpl; now rewrite L|]. split.
    + constructor.
      * unfold JS.substr. split; [simpl in Hl; lia|].
        apply binary_substring0.
      * eapply List.Forall_impl; [|exact F].
        intros p [Hp Hb]. split; [exact Hp|].
        intros Hs. apply Hb. now apply binary_substr_from.
    + rewrite concat_empty_cons, C. exact Hcut.
Qed.

Lemma split_every_spec (q size : nat) (s : string) :
  (0 < size)%nat -> String.length s = (q * size)%nat -> binary s = true ->
  List.length (Main.split_every size s) = q
  /\ List.Forall (fun p => String.length p = size /\ binary p = true)
       (Main.split_every size s)
  /\ String.concat "" (Main.split_every size s) = s.
Proof.
  intros Hsize Hl Hb. unfold Main.split_every.
  destruct (split_loop_spec q size (String.length s) s Hsize Hl) as (L & F & C);
    [lia|].
  split; [exact L|]. split; [|exact C].
  eapply List.Forall_impl; [|exact F]. intros p [Hp Hbp]. auto.
Qed.

(** More fuel than the length of the string changes nothing. *)
Lemma split_loop_fuel (size fuel : nat) (s : string) :
  (0 < size)%nat -> (String.length s <= fuel)%nat ->
  Main.split_loop fuel size s = Main.split_every size s.
Proof.
  intros Hsize. unfold Main.split_every.
  remember (String.length s) as n eqn:Hn.
  revert fuel s Hn. induction n as [n IH] using lt_wf_ind.
  intros fuel s Hn Hf. destruct fuel as [|fuel].
  - assert (n = 0%nat) by lia. subst n. rewrite H. reflexivity.
  - destruct n as [|n].
    + cbn [Main.split_loop]. rewrite <- Hn. reflexivity.
    + cbn [Main.split_loop]. rewrite <- Hn. cbn [Nat.ltb Nat.leb]. f_equal.
      pose proof (length_substr_from size s) as Htail.
      rewrite (IH (String.length (JS.substr_from size s)))
        with (fuel := fuel) by lia.
      rewrite (IH (String.length (JS.substr_from size s)))
        with (fuel := n) by lia.
      reflexivity.
Qed.

Lemma blocks_spec (q : nat) (p : string) :
  String.length p = (q * 512)%nat -> binary p = true ->
  let blocks := Main.step10_split_32b_words (Main.step9_split_512b_chunks p) in
  List.length blocks = q
  /\ List.Forall (fun block => List.length block = 16%nat /\ words_ok block)
       blocks.
Proof.
  intros Hl Hb blocks. subst blocks.
  unfold Main.step10_split_32b_words, Main.step9_split_512b_chunks.
  destruct (split_every_spec q 512 p) as (L & F & _); [lia | exact Hl | exact Hb |].
  rewrite List.length_map. split; [exact L|].
  rewrite List.Forall_map. eapply List.Forall_impl; [|exact F].
  intros chunk [Hc Hbc].
  destruct (split_every_spec 16 32 chunk) as (L' & F' & _);
    [lia | exact Hc | exact Hbc |].
  split; [exact L'|]. unfold words_ok.
  eapply List.Forall_impl; [|exact F']. intros w [Hw Hbw].
  now apply word32_iff.
Qed.

(** ** Steps 11 to 14 on a whole message *)

Lemma mapM_Forall2 {A B : Type} (f : A -> option B) (P : A -> Prop)
  (Q : A -> B -> Prop) (l : list A) :
  (forall x, P x -> exists y, f x = Some y /\ Q x y) ->
  List.Forall P l ->
  exists ys, mapM f l = Some ys /\ List.Forall2 Q l ys.
Proof.
  intros Hf. induction 1 as [|x l Hx Hl IH].
  - exists []. split; [reflexivity | constructor].
  - destruct (Hf x Hx) as (y & Ey & Qy). destruct IH as (ys & Eys & Qys).
    exists (y :: ys). cbn [mapM]. rewrite Ey. cbn [bind]. rewrite Eys.
    split; [reflexivity | now constructor].
Qed.

Lemma expand_schedule_of (block : list string) :
  List.length block = 16%nat /\ words_ok block ->
  exists W, Main.expand block = Some W /\ schedule_of block W.
Proof.
  intros [Hl Hw]. destruct (expand_spec block Hl Hw) as (W & E & H).
  exists W. split; [exact E|]. split; [exact E | exact H].
Qed.

Lemma schedules_spec (str : JS.source_string) :
  message_bits str < 2 ^ 64 ->
  exists p scheds,
    Main.padded str = Some p
    /\ Main.schedules str = Some scheds
    /\ List.Forall2 schedule_of
         (Main.step10_split_32b_words (Main.step9_split_512b_chunks p)) scheds
    /\ Z.of_nat (List.length scheds) * 512 = Z.of_nat (String.length p)
    /\ (0 < List.length scheds)%nat.
Proof.
  intros Hlen.
  destruct (padded_spec str Hlen) as (step5 & k & E5 & B5 & L5 & Ep & Hm).
  set (p := ((step5 ++ "1") ++ replicate k "0") ++ be_bits 64 (message_bits str))
    in *.
  assert (Lp : Z.of_nat (String.length p) = message_bits str + 1 + Z.of_nat k + 64).
  { unfold p. rewrite !length_append, length_replicate1, length_be_bits.
    simpl String.length. lia. }
  assert (Bp : binary p = true).
  { unfold p. now rewrite !binary_append, B5, binary_zeros, binary_be_bits. }
  pose proof (Z.div_mod (message_bits str + 1 + Z.of_nat k) 512 ltac:(lia)) as Hd.
  rewrite Hm in Hd.
  set (d := (message_bits str + 1 + Z.of_nat k) / 512) in *.
  assert (Hq : String.length p = (Z.to_nat (d + 1) * 512)%nat) by lia.
  destruct (blocks_spec _ p Hq Bp) as (Lb & Fb).
  destruct (mapM_Forall2 Main.expand _ schedule_of _ expand_schedule_of Fb)
    as (scheds & Es & Fs).
  exists p, scheds. split; [exact Ep|]. split.
  { unfold Main.schedules, Main.step11_80_words_per_chunk.
    rewrite Ep. cbn [bind]. exact Es. }
  split; [exact Fs|].
  apply List.Forall2_length in Fs. rewrite Lb in Fs. lia.
Qed.

Lemma schedules_ok (blocks scheds : list (list string)) :
  List.Forall2 schedule_of blocks scheds ->
  List.Forall (fun W => schedule_ok W = true) scheds.
Proof.
  induction 1 as [|block W blocks scheds H _ IH]; constructor; [|exact IH].
  apply H.
Qed.

(** The hash state is five words after any number of blocks. *)
Lemma foldM_process_chunk (scheds : list (list string)) (h : Main.hash) :
  hash_ok h = true ->
  List.Forall (fun W => schedule_ok W = true) scheds ->
  exists h', foldM Main.process_chunk scheds h = Some h' /\ hash_ok h' = true.
Proof.
  intros Hh Hs. revert h Hh. induction Hs as [|W scheds HW _ IH]; intros h Hh.
  - exists h. split; [reflexivity | assumption].
  - destruct (process_chunk_spec h W Hh HW) as (r & h1 & _ & _ & E & H1 & _).
    destruct (IH h1 H1) as (h' & E' & H').
    exists h'. cbn [foldM]. rewrite E. cbn [bind]. auto.
Qed.

Lemma hash_ok_initial : hash_ok Main.initial = true.
Proof. reflexivity. Qed.

(** ** Step 14: hexadecimal output *)

Lemma hex_digit_char (d : Z) : 0 <= d < 16 -> hex_digit (JS.digit_char d) = d.
Proof.
  intros H.
  assert (C : d = 0 \/ d = 1 \/ d = 2 \/ d = 3 \/ d = 4 \/ d = 5 \/ d = 6
              \/ d = 7 \/ d = 8 \/ d = 9 \/ d = 10 \/ d = 11 \/ d = 12
              \/ d = 13 \/ d = 14 \/ d = 15) by lia.
  repeat (destruct C as [-> | C]; [reflexivity|]). subst d. reflexivity.
Qed.

Lemma hex_value_append (s t : string) :
  hex_value (s ++ t)
  = hex_value s * 16 ^ Z.of_nat (String.length t) + hex_value t.
Proof.
  induction s as [|x s IH]; simpl; [lia|].
  rewrite IH, length_append, Nat2Z.inj_add, Z.pow_add_r by lia. lia.
Qed.

Lemma hex_value_zeros (k : nat) : hex_value (replicate k "0") = 0.
Proof. induction k as [|k IH]; simpl; [reflexivity|]. rewrite IH. reflexivity. Qed.

Lemma nat_digits16_value (fuel : nat) (n : Z) :
  0 <= n < 16 ^ Z.of_nat fuel -> hex_value (JS.nat_digits fuel 16 n) = n.
Proof.
  revert n. induction fuel as [|f IH]; intros n Hn.
  - change (16 ^ Z.of_nat 0) with 1 in Hn. simpl. lia.
  - rewrite Nat2Z.inj_succ, Z.pow_succ_r in Hn by lia.
    simpl. destruct (Z.ltb_spec n 16) as [Hlt|Hge].
    + simpl. rewrite hex_digit_char by lia. change (16 ^ Z.of_nat 0) with 1. lia.
    + pose proof (Z.mod_pos_bound n 16 ltac:(lia)).
      pose proof (Z.div_mod n 16 ltac:(lia)).
      rewrite hex_value_append, IH.
      * simpl. rewrite hex_digit_char by lia.
        change (16 ^ Z.of_nat 0) with 1. change (16 ^ Z.of_nat 1) with 16. lia.
      * split; [apply Z.div_pos; lia | apply Z.div_lt_upper_bound; lia].
Qed.

(** A register prints as exactly eight hexadecimal digits of its value. *)
Lemma binToHex_spec (h : string) :
  word32 h = true ->
  exists x, Utils.binToHex h 8 = Some x /\ String.length x = 8%nat
            /\ hex_value x = value h.
Proof.
  intros Hh. pose proof (word32_nonempty h Hh) as Hne.
  destruct (word32_value h Hh) as [_ Hv].
  apply word32_iff in Hh. destruct Hh as [Hl Hb].
  unfold Utils.binToHex. rewrite parseInt2_binary by assumption.
  unfold JS.toString. destruct (Z.ltb_spec (value h) 0) as [Hneg|_]; [lia|].
  set (hex := JS.nat_digits (JS.digits_fuel (value h)) 16 (value h)).
  assert (Hle : (String.length hex <= 8)%nat).
  { apply nat_digits_length_le; [lia | | lia].
    change (16 ^ Z.of_nat 8) with (2 ^ 32). exact Hv. }
  assert (Hpos : (0 < String.length hex)%nat) by apply nat_digits_nonempty.
  assert (Hval : hex_value hex = value h).
  { apply nat_digits16_value. split; [lia|].
    apply Z.lt_le_trans with (2 ^ Z.of_nat (JS.digits_fuel (value h))).
    - apply digits_fuel_enough. lia.
    - apply Z.pow_le_mono_l. lia. }
  destruct (Z.ltb_spec (Z.of_nat (String.length hex)) 8) as [Hlt|Hge].
  - rewrite getStringXTime_repeats by lia. cbn [bind].
    eexists. split; [reflexivity|].
    rewrite length_append, length_replicate1, hex_value_append, hex_value_zeros.
    split; lia.
  - exists hex. split; [reflexivity|]. split; [lia | exact Hval].
Qed.

Lemma step14_spec (h : Main.hash) :
  hash_ok h = true ->
  exists x0 x1 x2 x3 x4,
    Main.step14_finalize h = Some (x0 ++ x1 ++ x2 ++ x3 ++ x4)
    /\ (String.length x0 = 8 /\ String.length x1 = 8 /\ String.length x2 = 8
        /\ String.length x3 = 8 /\ String.length x4 = 8)%nat
    /\ hex_value x0 = value (Main.h0 h) /\ hex_value x1 = value (Main.h1 h)
    /\ hex_value x2 = value (Main.h2 h) /\ hex_value x3 = value (Main.h3 h)
    /\ hex_value x4 = value (Main.h4 h).
Proof.
  intros Hh. apply hash_ok_iff in Hh. destruct Hh as (H0 & H1 & H2 & H3 & H4).
  destruct (binToHex_spec _ H0) as (x0 & E0 & L0 & V0).
  destruct (binToHex_spec _ H1) as (x1 & E1 & L1 & V1).
  destruct (binToHex_spec _ H2) as (x2 & E2 & L2 & V2).
  destruct (binToHex_spec _ H3) as (x3 & E3 & L3 & V3).
  destruct (binToHex_spec _ H4) as (x4 & E4 & L4 & V4).
  exists x0, x1, x2, x3, x4. unfold Main.step14_finalize.
  rewrite E0, E1, E2, E3, E4. cbn [bind].
  repeat split; assumption.
Qed.

Lemma sha1_spec (str : JS.source_string) :
  message_bits str < 2 ^ 64 ->
  exists scheds h x0 x1 x2 x3 x4,
    Main.schedules str = Some scheds
    /\ Main.step13 scheds = Some h /\ hash_ok h = true
    /\ Main.sha1 str = Some (x0 ++ x1 ++ x2 ++ x3 ++ x4)
    /\ (String.length x0 = 8 /\ String.length x1 = 8 /\ String.length x2 = 8
        /\ String.length x3 = 8 /\ String.length x4 = 8)%nat
    /\ hex_value x0 = value (Main.h0 h) /\ hex_value x1 = value (Main.h1 h)
    /\ hex_value x2 = value (Main.h2 h) /\ hex_value x3 = value (Main.h3 h)
    /\ hex_value x4 = value (Main.h4 h).
Proof.
  intros Hlen.
  destruct (schedules_spec str Hlen) as (p & scheds & Ep & Es & Fs & _).
  destruct (foldM_process_chunk scheds Main.initial hash_ok_initial
              (schedules_ok _ _ Fs)) as (h & Eh & Hh).
  destruct (step14_spec h Hh) as (x0 & x1 & x2 & x3 & x4 & E & L & V).
  exists scheds, h, x0, x1, x2, x3, x4.
  split; [exact Es|]. split; [exact Eh|]. split; [exact Hh|].
  split; [|split; assumption].
  unfold Main.sha1. rewrite Es. cbn [bind].
  unfold Main.step13 in Eh |- *. rewrite Eh. cbn [bind]. exact E.
Qed.

Lemma Forall_firstn {A : Type} (P : A -> Prop) (k : nat) (l : list A) :
  List.Forall P l -> List.Forall P (List.firstn k l).
Proof.
  intros H. revert k. induction H as [|x l Hx _ IH]; intros k.
  - rewrite List.firstn_nil. constructor.
  - destruct k as [|k]; simpl; constructor; [exact Hx | apply IH].
Qed.

(** Every intermediate state of step 13: the hash state before each block
    and the registers after each number of rounds of that block. *)
Lemma step13_invariant (scheds : list (list string)) (k : nat) :
  List.Forall (fun W => schedule_ok W = true) scheds ->
  exists h,
    Main.step13 (List.firstn k scheds) = Some h /\ hash_ok h = true
    /\ forall W n, List.nth_error scheds k = Some W -> (n <= 80)%nat ->
       exists r,
         Main.rounds n W
           (Main.Registers (Main.h0 h) (Main.h1 h) (Main.h2 h) (Main.h3 h)
              (Main.h4 h)) = Some r
         /\ registers_ok r = true.
Proof.
  intros Hs.
  destruct (foldM_process_chunk (List.firstn k scheds) Main.initial
              hash_ok_initial (Forall_firstn _ k _ Hs)) as (h & E & Hh).
  exists h. split; [exact E|]. split; [exact Hh|].
  intros W n HW Hn. apply rounds_ok; [|apply registers_ok_iff|exact Hn].
  - rewrite List.Forall_forall in Hs. apply Hs.
    eapply List.nth_error_In. exact HW.
  - apply hash_ok_iff in Hh. exact Hh.
Qed.

(** ** The draft's schedule

    In the unfinished draft the first word of the schedule of the message
    "abc" is the block's first word rotated, and its twentieth word (the
    first to depend on a derived word) is not what the finished program
    computes. *)
Example draft_schedule_differs :
  exists W,
    Draft.step11_80_words_per_chunk [abc_block] = Some [W]
    /\ List.nth_error abc_block 0 = Some "01100001011000100110001110000000"
    /\ List.nth_error (List.hd [] (Draft.step12_rotate_words [W])) 0
       = Some "11000010110001001100011100000000"
    /\ List.nth_error (List.hd [] (Draft.step12_rotate_words [W])) 19
       <> List.nth_error abc_schedule 19.
Proof.
  eexists. split; [vm_compute; reflexivity|].
  split; [reflexivity|]. split; [reflexivity|].
  vm_compute. intros H. discriminate H.
Qed.

(** * The claims *)

(** ** Known answers *)

(** C1, as amended.  [sha1("Hello World")] is the forty-character digest
    0a4d55a8d778e5022fab701977c5d840bbc486d0. *)
Theorem sha1_hello_world :
  Main.sha1 (JS.char_codes "Hello World")
  = Some "0a4d55a8d778e5022fab701977c5d840bbc486d0".
Proof. vm_compute. reflexivity. Qed.

(** C1, as stated: the thirty-nine characters of the claim are not what
    [sha1("Hello World")] returns. *)
Lemma sha1_hello_world_not_39_characters :
  Main.sha1 (JS.char_codes "Hello World")
  <> Some "0a4d55a8d778e5022fab701977c5d840bbc486d".
Proof. vm_compute. intros H. discriminate H. Qed.

(** C5.  [sha1("")] is da39a3ee5e6b4b0d3255bfef95601890afd80709. *)
Theorem sha1_empty :
  Main.sha1 (JS.char_codes "")
  = Some "da39a3ee5e6b4b0d3255bfef95601890afd80709".
Proof. vm_compute. reflexivity. Qed.

(** The third known answer of the test vectors, in full. *)
Example sha1_abc :
  Main.sha1 (JS.char_codes "abc")
  = Some "a9993e364706816aba3e25717850c26c9cd0d89d".
Proof. vm_compute. reflexivity. Qed.

(** ** The round function of rounds 40 to 59 *)

Lemma majority_bits (x y z : bool) :
  xorb (xorb (x && y) (x && z)) (y && z) = (x && y) || (x && z) || (y && z).
Proof. now destruct x, y, z. Qed.

(** C2.  In rounds 40 to 59 the round function of the registers [b], [c],
    [d] is (b AND c) OR (b AND d) OR (c AND d), as a string and as a
    number, and the round constant is 0x8F1BBCDC. *)
Theorem round_40_59_majority (t : nat) (b c d : string) :
  (40 <= t <= 59)%nat ->
  word32 b = true -> word32 c = true -> word32 d = true ->
  Main.round_f t b c d
  = Utils.or (Utils.or (Utils.and b c) (Utils.and b d)) (Utils.and c d)
  /\ value (Main.round_f t b c d) = maj (value b) (value c) (value d)
  /\ Main.round_k t = be_bits 32 0x8F1BBCDC
  /\ value (Main.round_k t) = 0x8F1BBCDC.
Proof.
  intros Ht Hb Hc Hd.
  assert (Ef : Main.round_f t b c d
               = Utils.xor (Utils.xor (Utils.and b c) (Utils.and b d))
                   (Utils.and c d)).
  { unfold Main.round_f.
    destruct (Nat.ltb_spec t 20); [lia|].
    destruct (Nat.ltb_spec t 40); [lia|].
    destruct (Nat.ltb_spec t 60); [reflexivity | lia]. }
  assert (Ek : Main.round_k t = "10001111000110111011110011011100").
  { unfold Main.round_k.
    destruct (Nat.ltb_spec t 20); [lia|].
    destruct (Nat.ltb_spec t 40); [lia|].
    destruct (Nat.ltb_spec t 60); [reflexivity | lia]. }
  rewrite Ef, Ek.
  destruct (value_and b c Hb Hc) as [Wbc Vbc].
  destruct (value_and b d Hb Hd) as [Wbd Vbd].
  destruct (value_and c d Hc Hd) as [Wcd Vcd].
  destruct (value_or _ _ Wbc Wbd) as [Wo Vo].
  destruct (value_or _ _ Wo Wcd) as [Wm Vm].
  assert (Es : Utils.xor (Utils.xor (Utils.and b c) (Utils.and b d))
                 (Utils.and c d)
               = Utils.or (Utils.or (Utils.and b c) (Utils.and b d))
                   (Utils.and c d)).
  { destruct (word32_repr b Hb) as (x & _ & -> & _).
    destruct (word32_repr c Hc) as (y & _ & -> & _).
    destruct (word32_repr d Hd) as (z & _ & -> & _).
    rewrite !and_be_bits, !xor_be_bits, !or_be_bits.
    apply be_bits_ext. intros i _.
    rewrite !Z.lxor_spec, !Z.lor_spec, !Z.land_spec. apply majority_bits. }
  split; [exact Es|]. split.
  - rewrite Es, Vm, Vo, Vbc, Vbd, Vcd. reflexivity.
  - split; vm_compute; reflexivity.
Qed.

Lemma round_40_59_majority_witness :
  ((40 <= 47 <= 59)%nat
   /\ word32 (Main.h1 Main.initial) = true
   /\ word32 (Main.h2 Main.initial) = true
   /\ word32 (Main.h3 Main.initial) = true)
  /\ Main.round_f 47 (Main.h1 Main.initial) (Main.h2 Main.initial)
    (Main.h3 Main.initial)
  = Utils.or
      (Utils.or (Utils.and (Main.h1 Main.initial) (Main.h2 Main.initial))
         (Utils.and (Main.h1 Main.initial) (Main.h3 Main.initial)))
      (Utils.and (Main.h2 Main.initial) (Main.h3 Main.initial))
  /\ Main.round_k 47 = be_bits 32 0x8F1BBCDC.
Proof.
  assert (Ht : (40 <= 47 <= 59)%nat) by lia.
  assert (Hb : word32 (Main.h1 Main.initial) = true) by reflexivity.
  assert (Hc : word32 (Main.h2 Main.initial) = true) by reflexivity.
  assert (Hd : word32 (Main.h3 Main.initial) = true) by reflexivity.
  destruct (round_40_59_majority 47 (Main.h1 Main.initial)
              (Main.h2 Main.initial) (Main.h3 Main.initial) Ht Hb Hc Hd)
    as (Hf & _ & Hk & _).
  exact (conj (conj Ht (conj Hb (conj Hc Hd))) (conj Hf Hk)).
Defined.

(** ** The message schedule *)

(** C3.  The schedule of a block of sixteen words has eighty words, the
    first sixteen are the block's, and every later word is the rotation by
    one bit to the left of the exclusive or of the words 3, 8, 14 and 16
    places before it. *)
Theorem schedule_recurrence (block : list string) :
  List.length block = 16%nat ->
  List.Forall (fun w => word32 w = true) block ->
  exists W,
    Main.expand block = Some W
    /\ List.length W = 80%nat
    /\ (forall t, (t < 16)%nat -> List.nth_error W t = List.nth_error block t)
    /\ (forall t, (16 <= t <= 79)%nat ->
        exists w3 w8 w14 w16 wt,
          List.nth_error W (t - 3) = Some w3
          /\ List.nth_error W (t - 8) = Some w8
          /\ List.nth_error W (t - 14) = Some w14
          /\ List.nth_error W (t - 16) = Some w16
          /\ List.nth_error W t = Some wt
          /\ wt = Utils.rotate
                    (Utils.xor (Utils.xor (Utils.xor w3 w8) w14) w16) 1
          /\ value wt
             = rotl32 1
                 (Z.lxor (Z.lxor (Z.lxor (value w3) (value w8)) (value w14))
                    (value w16))).
Proof.
  intros Hl Hw. destruct (expand_spec block Hl Hw) as (W & E & S & P & R).
  exists W. split; [exact E|]. split; [now apply schedule_ok_iff in S|]. split.
  - intros t Ht. rewrite <- P, List.nth_error_firstn.
    destruct (Nat.ltb_spec t 16); [reflexivity | lia].
  - intros t Ht. apply R. lia.
Qed.

Lemma schedule_recurrence_witness :
  (List.length abc_block = 16%nat
   /\ List.Forall (fun w => word32 w = true) abc_block)
  /\ exists W, Main.expand abc_block = Some W /\ List.length W = 80%nat.
Proof.
  assert (Hl : List.length abc_block = 16%nat) by reflexivity.
  assert (Hw : List.Forall (fun w => word32 w = true) abc_block)
    by (repeat constructor).
  destruct (schedule_recurrence abc_block Hl Hw) as (W & E & L & _).
  split; [exact (conj Hl Hw)|].
  exists W. exact (conj E L).
Defined.

(** ** Padding *)

Lemma message_bits_nonneg (str : JS.source_string) : 0 <= message_bits str.
Proof.
  induction str as [|c str IH]; [reflexivity|].
  cbn [message_bits List.fold_right]. fold (message_bits str).
  unfold code_unit_bits. lia.
Qed.

(** C6.  The padded message is a positive number of 512-bit blocks; that
    of the empty message is one block: the '1', 447 times '0', and a length
    field of 64 times '0'. *)
Theorem padded_length (str : JS.source_string) :
  message_bits str < 2 ^ 64 ->
  (exists p,
     Main.padded str = Some p
     /\ binary p = true
     /\ Z.of_nat (String.length p) mod 512 = 0
     /\ 512 <= Z.of_nat (String.length p))
  /\ Main.padded []
     = Some ("1" ++ replicate 447 "0" ++ replicate 64 "0").
Proof.
  intros Hlen. split; [|vm_compute; reflexivity].
  destruct (padded_spec str Hlen) as (step5 & k & E5 & B5 & L5 & Ep & Hm).
  pose proof (message_bits_nonneg str) as Hnn.
  pose proof (Z.div_mod (message_bits str + 1 + Z.of_nat k) 512 ltac:(lia)) as Hd.
  rewrite Hm in Hd.
  assert (Hq : 0 <= (message_bits str + 1 + Z.of_nat k) / 512)
    by (apply Z.div_pos; lia).
  eexists. split; [exact Ep|].
  rewrite !binary_append, B5, binary_zeros, binary_be_bits.
  rewrite !length_append, length_replicate1, length_be_bits.
  simpl String.length. split; [reflexivity|]. split.
  - symmetry.
    apply Z.mod_unique
      with (q := (message_bits str + 1 + Z.of_nat k) / 512 + 1); lia.
  - lia.
Qed.

Lemma padded_length_witness :
  message_bits (JS.char_codes "abc") < 2 ^ 64
  /\ exists p,
       Main.padded (JS.char_codes "abc") = Some p
       /\ Z.of_nat (String.length p) mod 512 = 0
       /\ 512 <= Z.of_nat (String.length p).
Proof.
  assert (H : message_bits (JS.char_codes "abc") < 2 ^ 64) by reflexivity.
  split; [exact H|].
  destruct (padded_length (JS.char_codes "abc") H) as ((p & E & _ & M & L) & _).
  exists p. split; [exact E|]. split; [exact M | exact L].
Defined.

Lemma substr_from_append (s t : string) :
  JS.substr_from (String.length s) (s ++ t) = t.
Proof. induction s as [|x s IH]; simpl; [now destruct t | exact IH]. Qed.

(** C7.  The last 64 characters of the padded message are the bit-length
    of the message before padding, as a 64-bit big-endian number; for a
    message of bytes that length is eight times the number of bytes. *)
Theorem padded_length_field (str : JS.source_string) :
  message_bits str < 2 ^ 64 ->
  exists step5 p,
    Main.step5_combine_str str = Some step5
    /\ Main.padded str = Some p
    /\ JS.substr_from (String.length p - 64) p
       = be_bits 64 (Z.of_nat (String.length step5))
    /\ value (JS.substr_from (String.length p - 64) p)
       = Z.of_nat (String.length step5)
    /\ Z.of_nat (String.length step5) = message_bits str
    /\ (List.forallb is_byte str = true ->
        Z.of_nat (String.length step5) = 8 * Z.of_nat (List.length str)).
Proof.
  intros Hlen.
  destruct (padded_spec str Hlen) as (step5 & k & E5 & B5 & L5 & Ep & Hm).
  eexists step5, _. split; [exact E5|]. split; [exact Ep|].
  set (pre := (step5 ++ "1") ++ replicate k "0").
  assert (Hcut : JS.substr_from
                   (String.length (pre ++ be_bits 64 (message_bits str)) - 64)
                   (pre ++ be_bits 64 (message_bits str))
                 = be_bits 64 (message_bits str)).
  { rewrite length_append, length_be_bits, Nat.add_sub.
    apply substr_from_append. }
  rewrite Hcut, L5. split; [reflexivity|]. split.
  - rewrite value_be_bits. apply Z.mod_small.
    split; [apply message_bits_nonneg | exact Hlen].
  - split; [reflexivity|]. apply message_bits_bytes.
Qed.

Lemma padded_length_field_witness :
  message_bits (JS.char_codes "abc") < 2 ^ 64
  /\ exists p,
       Main.padded (JS.char_codes "abc") = Some p
       /\ value (JS.substr_from (String.length p - 64) p) = 24.
Proof.
  assert (H : message_bits (JS.char_codes "abc") < 2 ^ 64) by reflexivity.
  split; [exact H|].
  destruct (padded_length_field (JS.char_codes "abc") H)
    as (step5 & p & _ & E & _ & V & L & B).
  exists p. split; [exact E|]. rewrite V. apply B. reflexivity.
Defined.

(** ** Additions *)

(** C8.  [Utils.add] with target length 32 returns the 32-character
    big-endian representation of the sum modulo 2^32; the sum of a round
    and the five additions that close a block are the exact integer sums
    reduced modulo 2^32, and none of them throws. *)
Theorem additions_modulo_2_32 (w1 w2 : string) (words : list string)
  (r : Main.registers) (i : nat) (h : Main.hash) :
  word32 w1 = true -> word32 w2 = true ->
  schedule_ok words = true -> registers_ok r = true -> (i < 80)%nat ->
  hash_ok h = true ->
  Utils.add w1 w2 32 = Some (be_bits 32 ((value w1 + value w2) mod 2 ^ 32))
  /\ (exists r',
        Main.round words r i = Some r'
        /\ value (Main.a r')
           = (rotl32 5 (value (Main.a r))
              + value (Main.round_f i (Main.b r) (Main.c r) (Main.d r))
              + value (Main.e r) + value (Main.round_k i)
              + value (Main.word_at words i)) mod 2 ^ 32)
  /\ (exists r80 h',
        Main.rounds 80 words
          (Main.Registers (Main.h0 h) (Main.h1 h) (Main.h2 h) (Main.h3 h)
             (Main.h4 h)) = Some r80
        /\ Main.process_chunk h words = Some h'
        /\ value (Main.h0 h')
           = (value (Main.h0 h) + value (Main.a r80)) mod 2 ^ 32
        /\ value (Main.h1 h')
           = (value (Main.h1 h) + value (Main.b r80)) mod 2 ^ 32
        /\ value (Main.h2 h')
           = (value (Main.h2 h) + value (Main.c r80)) mod 2 ^ 32
        /\ value (Main.h3 h')
           = (value (Main.h3 h) + value (Main.d r80)) mod 2 ^ 32
        /\ value (Main.h4 h')
           = (value (Main.h4 h) + value (Main.e r80)) mod 2 ^ 32).
Proof.
  intros H1 H2 Hw Hr Hi Hh. split; [|split].
  - now apply add32_spec.
  - destruct (round_spec words r i Hw Hr Hi) as (r' & E & _ & V & _).
    exists r'. split; [exact E | exact V].
  - destruct (process_chunk_spec h words Hh Hw)
      as (r80 & h' & E & _ & P & _ & V).
    exists r80, h'. split; [exact E|]. split; [exact P | exact V].
Qed.

Lemma additions_modulo_2_32_witness :
  (word32 (Main.h1 Main.initial) = true
   /\ word32 (Main.h2 Main.initial) = true
   /\ schedule_ok abc_schedule = true
   /\ registers_ok
        (Main.Registers (Main.h0 Main.initial) (Main.h1 Main.initial)
           (Main.h2 Main.initial) (Main.h3 Main.initial)
           (Main.h4 Main.initial)) = true
   /\ (0 < 80)%nat
   /\ hash_ok Main.initial = true)
  /\ Utils.add (Main.h1 Main.initial) (Main.h2 Main.initial) 32
  = Some (be_bits 32
            ((value (Main.h1 Main.initial) + value (Main.h2 Main.initial))
             mod 2 ^ 32))
  /\ exists h', Main.process_chunk Main.initial abc_schedule = Some h'.
Proof.
  assert (H1 : word32 (Main.h1 Main.initial) = true) by reflexivity.
  assert (H2 : word32 (Main.h2 Main.initial) = true) by reflexivity.
  assert (Hw : schedule_ok abc_schedule = true) by reflexivity.
  assert (Hr : registers_ok
                 (Main.Registers (Main.h0 Main.initial) (Main.h1 Main.initial)
                    (Main.h2 Main.initial) (Main.h3 Main.initial)
                    (Main.h4 Main.initial)) = true) by reflexivity.
  assert (Hi : (0 < 80)%nat) by lia.
  assert (Hh : hash_ok Main.initial = true) by reflexivity.
  destruct (additions_modulo_2_32 _ _ _ _ _ _ H1 H2 Hw Hr Hi Hh)
    as (A & _ & (r80 & h' & _ & P & _)).
  split; [exact (conj H1 (conj H2 (conj Hw (conj Hr (conj Hi Hh)))))|].
  split; [exact A|]. exists h'. exact P.
Defined.

(** ** Input encoding *)

(** C9.  Steps 1 to 5 encode every code unit from 0 to 255 as one byte,
    eight binary characters, most significant bit first, whose value is
    the code unit; the message is the concatenation of these bytes. *)
Theorem input_encoding_bytes (str : JS.source_string) :
  List.forallb is_byte str = true ->
  Main.step4_ascii_binary_8_length str = Some (List.map byte_bits str)
  /\ Main.step5_combine_str str
     = Some (String.concat "" (List.map byte_bits str))
  /\ List.Forall
       (fun c => String.length (byte_bits c) = 8%nat
                 /\ binary (byte_bits c) = true
                 /\ value (byte_bits c) = Z.of_N c) str.
Proof.
  intros Hb.
  destruct (step4_spec str) as (l & E4 & _ & _ & H4).
  destruct (step5_spec str) as (s5 & E5 & _ & _ & H5).
  rewrite E4, E5, (H4 Hb), (H5 Hb). split; [reflexivity|].
  split; [reflexivity|].
  apply List.Forall_forall. intros c Hc.
  rewrite List.forallb_forall in Hb. specialize (Hb c Hc).
  unfold is_byte in Hb. apply N.ltb_lt in Hb. unfold byte_bits.
  rewrite length_be_bits, binary_be_bits, value_be_bits.
  repeat split. apply Z.mod_small. change (2 ^ Z.of_nat 8) with 256. lia.
Qed.

Lemma input_encoding_bytes_witness :
  List.forallb is_byte (JS.char_codes "abc") = true
  /\ Main.step5_combine_str (JS.char_codes "abc")
     = Some (String.concat "" (List.map byte_bits (JS.char_codes "abc"))).
Proof.
  assert (Hb : List.forallb is_byte (JS.char_codes "abc") = true)
    by reflexivity.
  destruct (input_encoding_bytes (JS.char_codes "abc") Hb) as (_ & E & _).
  split; [exact Hb | exact E].
Defined.

(** Above 255 a code unit takes more than eight characters: 256 takes
    nine. *)
Example code_unit_256 :
  Main.step5_combine_str [256%N] = Some "100000000".
Proof. reflexivity. Qed.

(** ** Registers are words *)

(** C10.  The operators of [Utils] return words on words, and in the
    computation of a digest every schedule word, the hash state before and
    after every block, and the working registers after every number of
    rounds of every block are words. *)
Theorem registers_are_words (str : JS.source_string) (s t : string)
  (count : nat) :
  message_bits str < 2 ^ 64 ->
  word32 s = true -> word32 t = true ->
  (word32 (Utils.xor s t) = true
   /\ word32 (Utils.and s t) = true
   /\ word32 (Utils.or s t) = true
   /\ word32 (Utils.not s) = true
   /\ word32 (Utils.rotate s count) = true
   /\ exists sum, Utils.add s t 32 = Some sum /\ word32 sum = true)
  /\ exists scheds,
       Main.schedules str = Some scheds
       /\ List.Forall (fun W => schedule_ok W = true) scheds
       /\ forall k, exists h,
            Main.step13 (List.firstn k scheds) = Some h
            /\ hash_ok h = true
            /\ forall W n,
                 List.nth_error scheds k = Some W -> (n <= 80)%nat ->
                 exists r,
                   Main.rounds n W
                     (Main.Registers (Main.h0 h) (Main.h1 h) (Main.h2 h)
                        (Main.h3 h) (Main.h4 h)) = Some r
                   /\ registers_ok r = true.
Proof.
  intros Hlen Hs Ht. split.
  - split; [now apply value_xor|]. split; [now apply value_and|].
    split; [now apply value_or|]. split; [now apply value_not|].
    split; [now apply word32_rotate|].
    destruct (value_add s t Hs Ht) as (sum & E & W & _).
    exists sum. split; [exact E | exact W].
  - destruct (schedules_spec str Hlen) as (p & scheds & _ & Es & Fs & _).
    pose proof (schedules_ok _ _ Fs) as Hok.
    exists scheds. split; [exact Es|]. split; [exact Hok|].
    intros k. now apply step13_invariant.
Qed.

Lemma registers_are_words_witness :
  (message_bits (JS.char_codes "abc") < 2 ^ 64
   /\ word32 (Main.h0 Main.initial) = true
   /\ word32 (Main.h1 Main.initial) = true)
  /\ word32 (Utils.xor (Main.h0 Main.initial) (Main.h1 Main.initial)) = true
  /\ exists scheds,
       Main.schedules (JS.char_codes "abc") = Some scheds
       /\ List.Forall (fun W => schedule_ok W = true) scheds.
Proof.
  assert (Hlen : message_bits (JS.char_codes "abc") < 2 ^ 64) by reflexivity.
  assert (Hs : word32 (Main.h0 Main.initial) = true) by reflexivity.
  assert (Ht : word32 (Main.h1 Main.initial) = true) by reflexivity.
  destruct (registers_are_words (JS.char_codes "abc")
              (Main.h0 Main.initial) (Main.h1 Main.initial) 5 Hlen Hs Ht)
    as ((X & _) & (scheds & E & F & _)).
  split; [exact (conj Hlen (conj Hs Ht))|].
  split; [exact X|]. exists scheds. exact (conj E F).
Defined.

(** * Further properties of the code *)

(** ** [Utils.getStringXTime] *)

Lemma length_replicate (k : nat) (s : string) :
  String.length (replicate k s) = (k * String.length s)%nat.
Proof.
  induction k as [|k IH]; simpl; [reflexivity|].
  now rewrite length_append, IH.
Qed.

(** X1.  [getStringXTime(str, count)] is [count] copies of [str] for a
    count from 0 on whose result stays below 2^28 characters; for -1 it is
    the empty string, and below that, or from 2^32 - 1 on, [new Array]
    throws. *)
Theorem getStringXTime_cases (str : string) (count : Z) :
  (0 <= count < 4294967295 ->
   count * Z.of_nat (String.length str) < 2 ^ 28 ->
   Utils.getStringXTime str count = Some (replicate (Z.to_nat count) str)
   /\ Z.of_nat (String.length (replicate (Z.to_nat count) str))
      = count * Z.of_nat (String.length str))
  /\ (count = -1 -> Utils.getStringXTime str count = Some "")
  /\ (count < -1 \/ 4294967295 <= count ->
      Utils.getStringXTime str count = None).
Proof.
  split; [|split].
  - intros H _. split; [now apply getStringXTime_repeats|].
    rewrite length_replicate. lia.
  - intros ->. reflexivity.
  - intros H. unfold Utils.getStringXTime, JS.array_join.
    destruct (Z.leb_spec 0 (count + 1)); [|reflexivity].
    destruct (Z.ltb_spec (count + 1) 4294967296); [lia | reflexivity].
Qed.

(** ** The bitwise operators on arbitrary strings *)

Lemma bitwise_loop_shape (test : option ascii -> option ascii -> bool)
  (n : nat) (w1 w2 : string) :
  String.length (Utils.bitwise_loop test n w1 w2) = n
  /\ binary (Utils.bitwise_loop test n w1 w2) = true.
Proof.
  revert w1 w2. induction n as [|n IH]; intros w1 w2; [split; reflexivity|].
  cbn [Utils.bitwise_loop].
  destruct (Utils.uncons w1) as [c1 r1], (Utils.uncons w2) as [c2 r2].
  destruct (IH r1 r2) as [L B]. cbn [String.length binary]. rewrite L, B.
  split; [reflexivity|]. now destruct (test c1 c2).
Qed.

Lemma get_bitwise_loop (test : option ascii -> option ascii -> bool)
  (g : bool -> bool -> bool) (n : nat) (w1 w2 : string) (i : nat) :
  (forall c1 c2, test c1 c2 = g (Utils.is1 c1) (Utils.is1 c2)) ->
  String.get i (Utils.bitwise_loop test n w1 w2)
  = if (i <? n)%nat
    then Some (bit_char (g (bit_at w1 i) (bit_at w2 i)))
    else None.
Proof.
  intros Ht. revert w1 w2 i. induction n as [|n IH]; intros w1 w2 i.
  - now destruct i.
  - cbn [Utils.bitwise_loop].
    destruct i as [|i].
    + destruct w1 as [|x1 r1], w2 as [|x2 r2];
        cbn [Utils.uncons String.get]; rewrite Ht; reflexivity.
    + change (S i <? S n)%nat with (i <? n)%nat.
      destruct w1 as [|x1 r1], w2 as [|x2 r2];
        cbn [Utils.uncons String.get]; rewrite IH;
        unfold bit_at; cbn [String.get]; now destruct i.
Qed.

Lemma xor_test_bits (c1 c2 : option ascii) :
  Utils.differ c1 c2 && (Utils.is1 c1 || Utils.is1 c2)
  = xorb (Utils.is1 c1) (Utils.is1 c2).
Proof.
  destruct c1 as [x|], c2 as [y|]; cbn [Utils.differ Utils.is1].
  - destruct (Ascii.eqb_spec x "1") as [-> | Hx],
      (Ascii.eqb_spec y "1") as [-> | Hy]; cbn [orb xorb andb negb];
      try now rewrite andb_false_r.
    + reflexivity.
    + destruct (Ascii.eqb_spec "1"%char y) as [E|_]; [now subst | reflexivity].
    + destruct (Ascii.eqb_spec x "1"%char) as [E|_]; [now subst | reflexivity].
  - now destruct (Ascii.eqb x "1").
  - now destruct (Ascii.eqb y "1").
  - reflexivity.
Qed.

(** X2.  Whatever the two strings hold, [xor], [or] and [and] return a
    string of '0' and '1' as long as the longer of the two, and the
    character at each index is the exclusive or, the or and the and of the
    two bits there, where a character that is missing or is not '1'
    counts as 0. *)
Theorem bitwise_output_shape (w1 w2 : string) :
  let n := Nat.max (String.length w1) (String.length w2) in
  (String.length (Utils.xor w1 w2) = n /\ binary (Utils.xor w1 w2) = true)
  /\ (String.length (Utils.or w1 w2) = n /\ binary (Utils.or w1 w2) = true)
  /\ (String.length (Utils.and w1 w2) = n /\ binary (Utils.and w1 w2) = true)
  /\ (forall i, (i < n)%nat ->
      String.get i (Utils.xor w1 w2)
      = Some (bit_char (xorb (bit_at w1 i) (bit_at w2 i)))
      /\ String.get i (Utils.or w1 w2)
         = Some (bit_char (bit_at w1 i || bit_at w2 i))
      /\ String.get i (Utils.and w1 w2)
         = Some (bit_char (bit_at w1 i && bit_at w2 i))).
Proof.
  intros n. unfold Utils.xor, Utils.or, Utils.and, Utils.bitwise. fold n.
  split; [apply bitwise_loop_shape|]. split; [apply bitwise_loop_shape|].
  split; [apply bitwise_loop_shape|].
  intros i Hi. apply Nat.ltb_lt in Hi.
  rewrite (get_bitwise_loop _ xorb) by apply xor_test_bits.
  rewrite (get_bitwise_loop _ orb) by reflexivity.
  rewrite (get_bitwise_loop _ andb) by reflexivity.
  rewrite Hi. repeat split.
Qed.

Lemma bitwise_loop_comm (test : option ascii -> option ascii -> bool)
  (n : nat) (w1 w2 : string) :
  (forall c1 c2, test c1 c2 = test c2 c1) ->
  Utils.bitwise_loop test n w1 w2 = Utils.bitwise_loop test n w2 w1.
Proof.
  intros Ht. revert w1 w2. induction n as [|n IH]; intros w1 w2; [reflexivity|].
  cbn [Utils.bitwise_loop].
  destruct (Utils.uncons w1) as [c1 r1], (Utils.uncons w2) as [c2 r2].
  now rewrite Ht, IH.
Qed.

Lemma differ_comm (c1 c2 : option ascii) :
  Utils.differ c1 c2 = Utils.differ c2 c1.
Proof.
  destruct c1 as [x|], c2 as [y|]; simpl; try reflexivity.
  now rewrite Ascii.eqb_sym.
Qed.

Lemma differ_same (c : option ascii) : Utils.differ c c = false.
Proof. destruct c as [x|]; simpl; [now rewrite Ascii.eqb_refl | reflexivity]. Qed.

Lemma xor_loop_same (n : nat) (w : string) :
  Utils.bitwise_loop
    (fun c1 c2 => Utils.differ c1 c2 && (Utils.is1 c1 || Utils.is1 c2)) n w w
  = replicate n "0".
Proof.
  revert w. induction n as [|n IH]; intros w; [reflexivity|].
  cbn [Utils.bitwise_loop]. destruct (Utils.uncons w) as [c r].
  now rewrite differ_same, IH.
Qed.

(** X3.  [xor], [or] and [and] do not depend on the order of their
    arguments, on any strings; the [xor] of a string with itself is all
    '0'. *)
Theorem bitwise_commutative (w1 w2 : string) :
  Utils.xor w1 w2 = Utils.xor w2 w1
  /\ Utils.or w1 w2 = Utils.or w2 w1
  /\ Utils.and w1 w2 = Utils.and w2 w1
  /\ Utils.xor w1 w1 = replicate (String.length w1) "0".
Proof.
  unfold Utils.xor, Utils.or, Utils.and, Utils.bitwise.
  rewrite (Nat.max_comm (String.length w2) (String.length w1)), Nat.max_id.
  split; [|split; [|split]].
  - apply bitwise_loop_comm. intros c1 c2.
    now rewrite differ_comm, (orb_comm (Utils.is1 c1)).
  - apply bitwise_loop_comm. intros c1 c2. apply orb_comm.
  - apply bitwise_loop_comm. intros c1 c2. apply andb_comm.
  - apply xor_loop_same.
Qed.

(** ** The bitwise operators on binary strings of one length *)

Lemma small_by_bits_width (w : nat) (m : Z) :
  0 <= m -> (forall i, Z.of_nat w <= i -> Z.testbit m i = false) ->
  m mod 2 ^ Z.of_nat w = m.
Proof.
  intros Hm H. apply Z.bits_inj'. intros i Hi.
  destruct (Z.lt_ge_cases i (Z.of_nat w)).
  - apply Z.mod_pow2_bits_low. lia.
  - rewrite Z.mod_pow2_bits_high by lia. symmetry. now apply H.
Qed.

Lemma binary_repr (s : string) :
  binary s = true ->
  exists x, 0 <= x < 2 ^ Z.of_nat (String.length s)
            /\ s = be_bits (String.length s) x /\ value s = x.
Proof.
  intros H. exists (value s). split; [apply value_bounds|].
  split; [symmetry; now apply be_bits_value | reflexivity].
Qed.

(** X4.  On two binary strings of the same length the operators compute
    the bitwise exclusive or, or and and of the numbers the strings denote,
    and [not] the complement within that length. *)
Theorem bitwise_values (s t : string) :
  binary s = true -> binary t = true -> String.length s = String.length t ->
  value (Utils.xor s t) = Z.lxor (value s) (value t)
  /\ value (Utils.or s t) = Z.lor (value s) (value t)
  /\ value (Utils.and s t) = Z.land (value s) (value t)
  /\ value (Utils.not s) = 2 ^ Z.of_nat (String.length s) - 1 - value s.
Proof.
  intros Hs Ht Hl.
  destruct (binary_repr s Hs) as (x & Rx & Es & Vx).
  destruct (binary_repr t Ht) as (y & Ry & Et & Vy).
  rewrite <- Hl in Ry, Et. rewrite Vx, Vy.
  set (w := String.length s) in *. clearbody w. subst s t.
  rewrite xor_be_bits, or_be_bits, and_be_bits, not_be_bits, !value_be_bits.
  split; [|split; [|split]].
  - apply small_by_bits_width; [apply Z.lxor_nonneg; lia|].
    intros i Hi. rewrite Z.lxor_spec.
    now rewrite (testbit_above (Z.of_nat w) x), (testbit_above (Z.of_nat w) y).
  - apply small_by_bits_width; [apply Z.lor_nonneg; lia|].
    intros i Hi. rewrite Z.lor_spec.
    now rewrite (testbit_above (Z.of_nat w) x), (testbit_above (Z.of_nat w) y).
  - apply small_by_bits_width; [apply Z.land_nonneg; lia|].
    intros i Hi. rewrite Z.land_spec.
    now rewrite (testbit_above (Z.of_nat w) x).
  - unfold Z.lnot, Z.pred. symmetry. apply Z.mod_unique with (q := -1); lia.
Qed.

Lemma bitwise_values_witness :
  (binary "0101" = true /\ binary "0011" = true
   /\ String.length "0101" = String.length "0011")
  /\ value (Utils.xor "0101" "0011") = Z.lxor (value "0101") (value "0011").
Proof.
  assert (Hs : binary "0101" = true) by reflexivity.
  assert (Ht : binary "0011" = true) by reflexivity.
  assert (Hl : String.length "0101" = String.length "0011") by reflexivity.
  destruct (bitwise_values "0101" "0011" Hs Ht Hl) as (X & _).
  exact (conj (conj Hs (conj Ht Hl)) X).
Defined.

(** ** [Utils.not] *)

Lemma not_shape (w : string) :
  String.length (Utils.not w) = String.length w
  /\ binary (Utils.not w) = true.
Proof.
  induction w as [|x w [L B]]; [split; reflexivity|].
  cbn [Utils.not String.length binary]. rewrite L, B.
  split; [reflexivity|]. now destruct (Ascii.eqb x "0").
Qed.

Lemma get_not (w : string) (i : nat) :
  String.get i (Utils.not w)
  = option_map (fun c => bit_char (Ascii.eqb c "0")) (String.get i w).
Proof.
  revert i. induction w as [|x w IH]; intros i; [now destruct i|].
  destruct i as [|i]; cbn [Utils.not String.get option_map]; [|apply IH].
  now destruct (Ascii.eqb x "0").
Qed.

(** X5.  [not] returns a binary string of the length of its argument,
    whatever the argument holds: at every index '0' becomes '1' and every
    other character becomes '0'.  Applied twice to a binary string it
    gives the string back. *)
Theorem not_involutive (w : string) :
  String.length (Utils.not w) = String.length w
  /\ binary (Utils.not w) = true
  /\ (forall i,
      String.get i (Utils.not w)
      = option_map (fun c => bit_char (Ascii.eqb c "0")) (String.get i w))
  /\ (binary w = true -> Utils.not (Utils.not w) = w).
Proof.
  destruct (not_shape w) as [L B]. split; [exact L|]. split; [exact B|].
  split; [apply get_not|].
  induction w as [|x w IH]; intros Hb; [reflexivity|].
  cbn [binary] in Hb. apply andb_true_iff in Hb. destruct Hb as [Hx Hw].
  cbn [Utils.not]. rewrite IH; try assumption; try apply not_shape.
  now destruct (is_bit_cases x Hx) as [-> | ->].
Qed.

(** ** [Utils.rotate] *)

Lemma rotate_add (s : string) (m n : nat) :
  Utils.rotate s (m + n) = Utils.rotate (Utils.rotate s m) n.
Proof.
  revert s. induction m as [|m IH]; intros s; [reflexivity|].
  cbn [Nat.add Utils.rotate]. apply IH.
Qed.

Lemma rotate_prefix (s t : string) :
  Utils.rotate (s ++ t) (String.length s) = t ++ s.
Proof.
  revert t. induction s as [|x s IH]; intros t.
  - simpl. now rewrite append_nil_r.
  - cbn [String.length Utils.rotate]. simpl Utils.rotate1.
    rewrite append_assoc, IH, append_assoc. reflexivity.
Qed.

Lemma length_rotate (s : string) (n : nat) :
  String.length (Utils.rotate s n) = String.length s.
Proof.
  revert s. induction n as [|n IH]; intros s; [reflexivity|].
  cbn [Utils.rotate]. now rewrite IH, length_rotate1.
Qed.

Lemma rotate_full (s : string) :
  Utils.rotate s (String.length s) = s.
Proof.
  rewrite <- (append_nil_r s) at 1. now rewrite rotate_prefix.
Qed.

Lemma rotate_turns (s : string) (q n : nat) :
  Utils.rotate s (q * String.length s + n) = Utils.rotate s n.
Proof.
  induction q as [|q IH]; [reflexivity|].
  replace (S q * String.length s + n)%nat
    with (String.length s + (q * String.length s + n))%nat by lia.
  now rewrite rotate_add, rotate_full.
Qed.

(** X6.  [rotate(str, count)] moves the first [count] characters to the
    end: it keeps the length, rotating by [m + n] is rotating by [m] and
    then by [n], and a full turn, or any number of them, changes nothing. *)
Theorem rotate_moves_prefix (s t : string) (m n q : nat) :
  Utils.rotate (s ++ t) (String.length s) = t ++ s
  /\ String.length (Utils.rotate s n) = String.length s
  /\ Utils.rotate s (m + n) = Utils.rotate (Utils.rotate s m) n
  /\ Utils.rotate s (q * String.length s + n) = Utils.rotate s n.
Proof.
  split; [apply rotate_prefix|]. split; [apply length_rotate|].
  split; [apply rotate_add | apply rotate_turns].
Qed.

(** X7.  On a register, [rotate] by a count up to 1024 (the source
    recurses once per count) is the rotation of the 32-bit value to the
    left by the count modulo 32. *)
Theorem rotate_value (s : string) (count : nat) :
  word32 s = true -> (count <= 1024)%nat ->
  word32 (Utils.rotate s count) = true
  /\ value (Utils.rotate s count)
     = rotl32 (Z.of_nat (count mod 32)) (value s).
Proof.
  intros Hs _. split; [now apply word32_rotate|].
  pose proof (proj1 (proj1 (word32_iff s) Hs)) as Hl.
  rewrite (Nat.div_mod_eq count 32) at 1.
  rewrite (Nat.mul_comm 32), <- Hl, rotate_turns, Hl.
  apply value_rotate; [exact Hs|].
  pose proof (Nat.mod_upper_bound count 32). lia.
Qed.

Lemma rotate_value_witness :
  (word32 (Main.h0 Main.initial) = true /\ (37 <= 1024)%nat)
  /\ value (Utils.rotate (Main.h0 Main.initial) 37)
     = rotl32 (Z.of_nat (37 mod 32)) (value (Main.h0 Main.initial)).
Proof.
  assert (H : word32 (Main.h0 Main.initial) = true) by reflexivity.
  assert (Hc : (37 <= 1024)%nat) by lia.
  exact (conj (conj H Hc)
           (proj2 (rotate_value (Main.h0 Main.initial) 37 H Hc))).
Defined.

(** ** [Utils.add] *)

(** X8.  For binary operands of any lengths and any target length,
    [add] returns the sum modulo [2 ^ length] in exactly [length] binary
    characters: short sums are padded with '0' on the left, long ones lose
    their high digits.  The sum is below 2^53, where JavaScript's numbers
    are exact, and the target length below 2^28, so that the padding is a
    string an engine builds. *)
Theorem add_any_width (w1 w2 : string) (length : nat) :
  binary w1 = true -> binary w2 = true ->
  (0 < String.length w1)%nat -> (0 < String.length w2)%nat ->
  value w1 + value w2 < 2 ^ 53 ->
  Z.of_nat length < 2 ^ 28 ->
  exists sum,
    Utils.add w1 w2 (Z.of_nat length) = Some sum
    /\ String.length sum = length
    /\ binary sum = true
    /\ value sum = (value w1 + value w2) mod 2 ^ Z.of_nat length.
Proof.
  intros B1 B2 L1 L2 _ Hw. eexists.
  split; [apply add_wraps; try assumption; lia|].
  rewrite length_be_bits, binary_be_bits, value_be_bits.
  repeat split. apply Z.mod_mod. lia.
Qed.

Lemma add_any_width_witness :
  (binary "1010" = true /\ binary "1001" = true
   /\ (0 < String.length "1010")%nat /\ (0 < String.length "1001")%nat
   /\ value "1010" + value "1001" < 2 ^ 53
   /\ Z.of_nat 4 < 2 ^ 28)
  /\ exists sum,
       Utils.add "1010" "1001" (Z.of_nat 4) = Some sum
       /\ value sum = (value "1010" + value "1001") mod 2 ^ Z.of_nat 4.
Proof.
  assert (B1 : binary "1010" = true) by reflexivity.
  assert (B2 : binary "1001" = true) by reflexivity.
  assert (L1 : (0 < String.length "1010")%nat) by (simpl; lia).
  assert (L2 : (0 < String.length "1001")%nat) by (simpl; lia).
  assert (Hs : value "1010" + value "1001" < 2 ^ 53) by reflexivity.
  assert (Hw : Z.of_nat 4 < 2 ^ 28) by reflexivity.
  destruct (add_any_width "1010" "1001" 4 B1 B2 L1 L2 Hs Hw)
    as (sum & E & _ & _ & V).
  split; [exact (conj B1 (conj B2 (conj L1 (conj L2 (conj Hs Hw)))))|].
  exists sum. exact (conj E V).
Defined.

Lemma plus_comm (x y : JS.number) : JS.plus x y = JS.plus y x.
Proof. destruct x, y; simpl; try reflexivity. f_equal. apply Z.add_comm. Qed.

Lemma word32_zero : word32 (be_bits 32 0) = true.
Proof. reflexivity. Qed.

(** X9.  [add] does not depend on the order of its operands, on any
    strings; on registers it is associative and the register of 32 times
    '0' is neutral, so the four additions of a round can be grouped
    freely. *)
Theorem add_commutative_associative (w1 w2 w3 : string) (length : Z) :
  Utils.add w1 w2 length = Utils.add w2 w1 length
  /\ (word32 w1 = true -> word32 w2 = true -> word32 w3 = true ->
      (x <- Utils.add w1 w2 32 ;; Utils.add x w3 32)
      = (y <- Utils.add w2 w3 32 ;; Utils.add w1 y 32))
  /\ (word32 w1 = true ->
      Utils.add w1 "00000000000000000000000000000000" 32 = Some w1).
Proof.
  split; [|split].
  - unfold Utils.add. now rewrite plus_comm.
  - intros H1 H2 H3.
    rewrite (add32_spec w1 w2 H1 H2), (add32_spec w2 w3 H2 H3). cbn [bind].
    rewrite (add32_spec _ w3 (word32_be_bits _) H3).
    rewrite (add32_spec w1 _ H1 (word32_be_bits _)).
    rewrite !value_be_bits. unfold add32. f_equal.
    change (Z.of_nat 32) with 32.
    rewrite !Z.mod_mod, Zplus_mod_idemp_l, Zplus_mod_idemp_r by lia.
    f_equal. f_equal. lia.
  - intros H1.
    change "00000000000000000000000000000000" with (be_bits 32 0).
    rewrite (add32_spec w1 _ H1 word32_zero).
    destruct (word32_repr w1 H1) as (x & Rx & E & V).
    rewrite V. subst w1. f_equal. unfold add32.
    rewrite value_be_bits, Z.mod_0_l, Z.add_0_r by lia.
    apply (be_bits_low 32 32). lia.
Qed.

(** X10.  For a target length from 3 to below 2^28, [add] does not throw
    on an empty operand: [parseInt] gives [NaN], and the result is the text
    "NaN" padded with '0' on the left to the target length. *)
Theorem add_empty_operand (w1 w2 : string) (length : Z) :
  w1 = "" \/ w2 = "" -> 3 <= length < 2 ^ 28 ->
  Utils.add w1 w2 length
  = Some (replicate (Z.to_nat (length - 3)) "0" ++ "NaN").
Proof.
  intros He Hl.
  assert (Hnan : JS.plus (JS.parseInt2 w1) (JS.parseInt2 w2) = JS.NaN).
  { destruct He as [-> | ->]; [reflexivity|].
    now destruct (JS.parseInt2 w1). }
  unfold Utils.add. rewrite Hnan. cbn [JS.toString].
  change (Z.of_nat (String.length "NaN")) with 3.
  destruct (Z.ltb_spec 3 length) as [Hlt|Hge].
  - rewrite getStringXTime_repeats by lia. reflexivity.
  - destruct (Z.gtb_spec 3 length) as [Hgt|Hle]; [lia|].
    replace length with 3 by lia. reflexivity.
Qed.

Lemma add_empty_operand_witness :
  ("" = "" \/ Main.h0 Main.initial = "") /\ 3 <= 32 < 2 ^ 28
  /\ Utils.add "" (Main.h0 Main.initial) 32
     = Some "00000000000000000000000000000NaN".
Proof.
  assert (He : "" = "" \/ Main.h0 Main.initial = "") by (left; reflexivity).
  assert (Hl : 3 <= 32 < 2 ^ 28) by lia.
  exact (conj He (conj Hl (add_empty_operand "" (Main.h0 Main.initial) 32 He Hl))).
Defined.

(** ** [Utils.binToHex] *)

Lemma is_hex_digit_char (n : Z) :
  0 <= n < 16 -> is_hex_char (JS.digit_char n) = true.
Proof.
  intros H. unfold JS.digit_char.
  assert (Hk : (Z.to_nat n < 16)%nat) by lia.
  generalize dependent (Z.to_nat n). intros k Hk.
  do 16 (destruct k as [|k]; [reflexivity|]). lia.
Qed.

Lemma all_hex_append (s t : string) :
  all_hex (s ++ t) = all_hex s && all_hex t.
Proof.
  induction s as [|x s IH]; simpl; [reflexivity|].
  now rewrite IH, andb_assoc.
Qed.

Lemma all_hex_zeros (k : nat) : all_hex (replicate k "0") = true.
Proof. induction k as [|k IH]; simpl; [reflexivity | exact IH]. Qed.

Lemma all_hex_nat_digits (fuel : nat) (n : Z) :
  0 <= n -> all_hex (JS.nat_digits fuel 16 n) = true.
Proof.
  revert n. induction fuel as [|f IH]; intros n Hn; simpl; [reflexivity|].
  destruct (Z.ltb_spec n 16) as [Hlt|Hge].
  - simpl. now rewrite is_hex_digit_char by lia.
  - rewrite all_hex_append, IH by (apply Z.div_pos; lia).
    simpl. now rewrite is_hex_digit_char by (apply Z.mod_pos_bound; lia).
Qed.

Lemma binToHex_general (str : string) :
  binary str = true -> (0 < String.length str)%nat ->
  exists x,
    Utils.binToHex str 8 = Some x
    /\ hex_value x = value str
    /\ all_hex x = true
    /\ (8 <= String.length x)%nat
    /\ (value str < 2 ^ 32 -> String.length x = 8%nat).
Proof.
  intros Hb Hne. pose proof (value_bounds str) as [Hv _].
  unfold Utils.binToHex. rewrite parseInt2_binary by assumption.
  unfold JS.toString. destruct (Z.ltb_spec (value str) 0) as [Hneg|_]; [lia|].
  set (hex := JS.nat_digits (JS.digits_fuel (value str)) 16 (value str)).
  assert (Hval : hex_value hex = value str).
  { apply nat_digits16_value. split; [lia|].
    apply Z.lt_le_trans with (2 ^ Z.of_nat (JS.digits_fuel (value str))).
    - apply digits_fuel_enough. lia.
    - apply Z.pow_le_mono_l. lia. }
  assert (Hhex : all_hex hex = true) by now apply all_hex_nat_digits.
  assert (Hsmall : value str < 2 ^ 32 -> (String.length hex <= 8)%nat).
  { intros H. apply nat_digits_length_le; [lia | | lia].
    change (16 ^ Z.of_nat 8) with (2 ^ 32). lia. }
  destruct (Z.ltb_spec (Z.of_nat (String.length hex)) 8) as [Hlt|Hge].
  - rewrite getStringXTime_repeats by lia. cbn [bind].
    eexists. split; [reflexivity|].
    rewrite length_append, length_replicate1, hex_value_append, hex_value_zeros.
    rewrite all_hex_append, all_hex_zeros, Hhex.
    repeat split; lia.
  - exists hex. split; [reflexivity|]. split; [exact Hval|].
    split; [exact Hhex|]. split; [lia|]. intros H. specialize (Hsmall H). lia.
Qed.

(** X11.  For every non-empty binary string of a value below 2^53 (where
    JavaScript's numbers are exact), [binToHex(str, 8)] is a string of
    lower-case hexadecimal digits that denotes the same number: eight
    digits when the number is below 2^32, never fewer, and no digit is cut
    when it is larger. *)
Theorem binToHex_round_trip (str : string) :
  binary str = true -> (0 < String.length str)%nat ->
  value str < 2 ^ 53 ->
  exists x,
    Utils.binToHex str 8 = Some x
    /\ hex_value x = value str
    /\ all_hex x = true
    /\ (8 <= String.length x)%nat
    /\ (value str < 2 ^ 32 -> String.length x = 8%nat).
Proof. intros Hb Hl _. now apply binToHex_general. Qed.

Lemma binToHex_round_trip_witness :
  (binary "101011" = true /\ (0 < String.length "101011")%nat
   /\ value "101011" < 2 ^ 53)
  /\ exists x, Utils.binToHex "101011" 8 = Some x
               /\ hex_value x = value "101011".
Proof.
  assert (Hb : binary "101011" = true) by reflexivity.
  assert (Hl : (0 < String.length "101011")%nat) by (simpl; lia).
  assert (Hv : value "101011" < 2 ^ 53) by reflexivity.
  destruct (binToHex_round_trip "101011" Hb Hl Hv) as (x & E & V & _).
  split; [exact (conj Hb (conj Hl Hv))|]. exists x. exact (conj E V).
Defined.

Lemma step14_hex (h : Main.hash) :
  hash_ok h = true ->
  exists x0 x1 x2 x3 x4,
    Main.step14_finalize h = Some (x0 ++ x1 ++ x2 ++ x3 ++ x4)
    /\ all_hex (x0 ++ x1 ++ x2 ++ x3 ++ x4) = true
    /\ (String.length x0 = 8 /\ String.length x1 = 8 /\ String.length x2 = 8
        /\ String.length x3 = 8 /\ String.length x4 = 8)%nat
    /\ hex_value x0 = value (Main.h0 h) /\ hex_value x1 = value (Main.h1 h)
    /\ hex_value x2 = value (Main.h2 h) /\ hex_value x3 = value (Main.h3 h)
    /\ hex_value x4 = value (Main.h4 h).
Proof.
  intros Hh. apply hash_ok_iff in Hh. destruct Hh as (H0 & H1 & H2 & H3 & H4).
  assert (G : forall w, word32 w = true ->
              exists x, Utils.binToHex w 8 = Some x /\ hex_value x = value w
                        /\ all_hex x = true /\ String.length x = 8%nat).
  { intros w Hw. pose proof (word32_nonempty w Hw) as Hne.
    destruct (word32_value w Hw) as [_ Hv]. apply word32_iff in Hw.
    destruct (binToHex_general w (proj2 Hw) Hne) as (x & E & V & A & _ & L).
    exists x. repeat split; try assumption. apply L. lia. }
  destruct (G _ H0) as (x0 & E0 & V0 & A0 & L0).
  destruct (G _ H1) as (x1 & E1 & V1 & A1 & L1).
  destruct (G _ H2) as (x2 & E2 & V2 & A2 & L2).
  destruct (G _ H3) as (x3 & E3 & V3 & A3 & L3).
  destruct (G _ H4) as (x4 & E4 & V4 & A4 & L4).
  exists x0, x1, x2, x3, x4. unfold Main.step14_finalize.
  rewrite E0, E1, E2, E3, E4. cbn [bind].
  rewrite !all_hex_append, A0, A1, A2, A3, A4.
  repeat split; assumption.
Qed.

Lemma sha1_via_hash (str : JS.source_string) :
  message_bits str < 2 ^ 64 ->
  exists p scheds h,
    Main.padded str = Some p
    /\ Main.schedules str = Some scheds
    /\ List.Forall2 schedule_of
         (Main.step10_split_32b_words (Main.step9_split_512b_chunks p)) scheds
    /\ Main.step13 scheds = Some h /\ hash_ok h = true
    /\ Main.sha1 str = Main.step14_finalize h.
Proof.
  intros Hlen.
  destruct (schedules_spec str Hlen) as (p & scheds & Ep & Es & Fs & _).
  destruct (foldM_process_chunk scheds Main.initial hash_ok_initial
              (schedules_ok _ _ Fs)) as (h & Eh & Hh).
  exists p, scheds, h. repeat split; try assumption.
  unfold Main.sha1. rewrite Es. cbn [bind].
  unfold Main.step13 in Eh |- *. now rewrite Eh.
Qed.

Lemma step14_registers (h : Main.hash) :
  hash_ok h = true ->
  exists x0 x1 x2 x3 x4,
    (Utils.binToHex (Main.h0 h) 8 = Some x0
     /\ Utils.binToHex (Main.h1 h) 8 = Some x1
     /\ Utils.binToHex (Main.h2 h) 8 = Some x2
     /\ Utils.binToHex (Main.h3 h) 8 = Some x3
     /\ Utils.binToHex (Main.h4 h) 8 = Some x4)
    /\ Main.step14_finalize h = Some (x0 ++ x1 ++ x2 ++ x3 ++ x4)
    /\ all_hex (x0 ++ x1 ++ x2 ++ x3 ++ x4) = true
    /\ (String.length x0 = 8 /\ String.length x1 = 8 /\ String.length x2 = 8
        /\ String.length x3 = 8 /\ String.length x4 = 8)%nat
    /\ hex_value x0 = value (Main.h0 h) /\ hex_value x1 = value (Main.h1 h)
    /\ hex_value x2 = value (Main.h2 h) /\ hex_value x3 = value (Main.h3 h)
    /\ hex_value x4 = value (Main.h4 h).
Proof.
  intros Hh. apply hash_ok_iff in Hh. destruct Hh as (H0 & H1 & H2 & H3 & H4).
  assert (G : forall w, word32 w = true ->
              exists x, Utils.binToHex w 8 = Some x /\ hex_value x = value w
                        /\ all_hex x = true /\ String.length x = 8%nat).
  { intros w Hw. pose proof (word32_nonempty w Hw) as Hne.
    destruct (word32_value w Hw) as [_ Hv]. apply word32_iff in Hw.
    destruct (binToHex_general w (proj2 Hw) Hne) as (x & E & V & A & _ & L).
    exists x. split; [exact E|]. split; [exact V|]. split; [exact A|].
    apply L. lia. }
  destruct (G _ H0) as (x0 & E0 & V0 & A0 & L0).
  destruct (G _ H1) as (x1 & E1 & V1 & A1 & L1).
  destruct (G _ H2) as (x2 & E2 & V2 & A2 & L2).
  destruct (G _ H3) as (x3 & E3 & V3 & A3 & L3).
  destruct (G _ H4) as (x4 & E4 & V4 & A4 & L4).
  exists x0, x1, x2, x3, x4.
  split; [exact (conj E0 (conj E1 (conj E2 (conj E3 E4))))|].
  split; [unfold Main.step14_finalize; now rewrite E0, E1, E2, E3, E4|].
  split; [now rewrite !all_hex_append, A0, A1, A2, A3, A4|].
  split; [exact (conj L0 (conj L1 (conj L2 (conj L3 L4))))|].
  exact (conj V0 (conj V1 (conj V2 (conj V3 V4)))).
Qed.

(** ** The digest *)

(** C4.  The digest of every message is forty hexadecimal characters,
    twenty bytes: the five registers of the hash state that step 13 leaves
    after the last block, each printed by [binToHex] as exactly eight
    lower-case hexadecimal digits of its value, in the order h0 to h4. *)
Theorem sha1_digest_length (str : JS.source_string) :
  message_bits str < 2 ^ 64 ->
  exists scheds h x0 x1 x2 x3 x4,
    Main.schedules str = Some scheds
    /\ Main.step13 scheds = Some h
    /\ hash_ok h = true
    /\ (Utils.binToHex (Main.h0 h) 8 = Some x0
        /\ Utils.binToHex (Main.h1 h) 8 = Some x1
        /\ Utils.binToHex (Main.h2 h) 8 = Some x2
        /\ Utils.binToHex (Main.h3 h) 8 = Some x3
        /\ Utils.binToHex (Main.h4 h) 8 = Some x4)
    /\ Main.sha1 str = Some (x0 ++ x1 ++ x2 ++ x3 ++ x4)
    /\ String.length (x0 ++ x1 ++ x2 ++ x3 ++ x4) = 40%nat
    /\ all_hex (x0 ++ x1 ++ x2 ++ x3 ++ x4) = true
    /\ (String.length x0 = 8 /\ String.length x1 = 8 /\ String.length x2 = 8
        /\ String.length x3 = 8 /\ String.length x4 = 8)%nat
    /\ hex_value x0 = value (Main.h0 h) /\ hex_value x1 = value (Main.h1 h)
    /\ hex_value x2 = value (Main.h2 h) /\ hex_value x3 = value (Main.h3 h)
    /\ hex_value x4 = value (Main.h4 h).
Proof.
  intros Hlen.
  destruct (sha1_via_hash str Hlen)
    as (p & scheds & h & _ & Es & _ & Eh & Hh & E).
  destruct (step14_registers h Hh)
    as (x0 & x1 & x2 & x3 & x4 & Eb & E14 & A & L & V).
  exists scheds, h, x0, x1, x2, x3, x4.
  split; [exact Es|]. split; [exact Eh|]. split; [exact Hh|].
  split; [exact Eb|]. split; [now rewrite E|]. split.
  - rewrite !length_append. lia.
  - split; [exact A|]. split; [exact L | exact V].
Qed.

Lemma sha1_digest_length_witness :
  message_bits (JS.char_codes "abc") < 2 ^ 64
  /\ exists digest,
       Main.sha1 (JS.char_codes "abc") = Some digest
       /\ String.length digest = 40%nat.
Proof.
  assert (H : message_bits (JS.char_codes "abc") < 2 ^ 64) by reflexivity.
  split; [exact H|].
  destruct (sha1_digest_length (JS.char_codes "abc") H)
    as (scheds & h & x0 & x1 & x2 & x3 & x4 & _ & _ & _ & _ & E & L & _).
  exists (x0 ++ x1 ++ x2 ++ x3 ++ x4). split; [exact E | exact L].
Defined.

(** X12.  The digest of every message is written in the characters
    0 to 9 and a to f only. *)
Theorem sha1_lower_case_hex (str : JS.source_string) :
  message_bits str < 2 ^ 64 ->
  exists digest, Main.sha1 str = Some digest /\ all_hex digest = true.
Proof.
  intros Hlen.
  destruct (sha1_via_hash str Hlen) as (p & scheds & h & _ & _ & _ & _ & Hh & E).
  destruct (step14_hex h Hh) as (x0 & x1 & x2 & x3 & x4 & E14 & A & _).
  eexists. rewrite E. split; [exact E14 | exact A].
Qed.

Lemma sha1_lower_case_hex_witness :
  message_bits (JS.char_codes "abc") < 2 ^ 64
  /\ exists digest,
       Main.sha1 (JS.char_codes "abc") = Some digest /\ all_hex digest = true.
Proof.
  assert (H : message_bits (JS.char_codes "abc") < 2 ^ 64) by reflexivity.
  exact (conj H (sha1_lower_case_hex (JS.char_codes "abc") H)).
Defined.

(** ** Padding *)

Lemma step7_bound (str : string) :
  exists k, Main.step7_modulo_512_is_448 str = Some (str ++ replicate k "0")
    /\ (Z.of_nat (String.length str) + Z.of_nat k) mod 512 = 448
    /\ (k < 512)%nat.
Proof.
  unfold Main.step7_modulo_512_is_448.
  set (len := Z.of_nat (String.length str)).
  pose proof (Z.mod_pos_bound len 512 ltac:(lia)) as Hm.
  pose proof (Z.div_mod len 512 ltac:(lia)) as Hd.
  destruct (Z.ltb_spec (len mod 512) 448) as [Hlt|Hge].
  - rewrite getStringXTime_repeats by lia. cbn [bind].
    eexists. split; [reflexivity|]. split; [|lia].
    rewrite Z2Nat.id by lia.
    symmetry. apply Z.mod_unique with (q := len / 512); lia.
  - destruct (Z.gtb_spec (len mod 512) 448) as [Hgt|Hle].
    + rewrite getStringXTime_repeats by lia. cbn [bind].
      eexists. split; [reflexivity|]. split; [|lia].
      rewrite Z2Nat.id by lia.
      symmetry. apply Z.mod_unique with (q := len / 512 + 1); lia.
    + exists 0%nat. cbn [replicate]. rewrite append_nil_r.
      split; [reflexivity|]. split; [|lia]. rewrite Z.add_0_r. lia.
Qed.

Lemma padded_structure (str : JS.source_string) :
  message_bits str < 2 ^ 64 ->
  exists step5 k p,
    Main.step5_combine_str str = Some step5
    /\ binary step5 = true
    /\ Z.of_nat (String.length step5) = message_bits str
    /\ (k < 512)%nat
    /\ Main.padded str = Some p
    /\ p = step5 ++ "1" ++ replicate k "0" ++ be_bits 64 (message_bits str)
    /\ Z.of_nat (String.length p) = 512 * ((message_bits str + 64) / 512 + 1).
Proof.
  intros Hlen. destruct (step5_spec str) as (step5 & E5 & B5 & L5 & _).
  destruct (step7_bound (Main.step6_append_1 step5)) as (k & E7 & M7 & Hk).
  exists step5, k. eexists.
  split; [exact E5|]. split; [exact B5|]. split; [exact L5|]. split; [exact Hk|].
  split.
  { unfold Main.padded. rewrite E5. cbn [bind]. rewrite E7. cbn [bind].
    rewrite step8_spec by lia. rewrite L5. reflexivity. }
  unfold Main.step6_append_1 in *. split; [now rewrite !append_assoc|].
  rewrite !length_append, length_replicate1, length_be_bits in *.
  simpl String.length in *.
  pose proof (message_bits_nonneg str) as Hnn.
  pose proof (Z.div_mod (Z.of_nat (String.length step5 + 1) + Z.of_nat k) 512
                ltac:(lia)) as Hd.
  rewrite M7 in Hd.
  set (q := (Z.of_nat (String.length step5 + 1) + Z.of_nat k) / 512) in *.
  assert (Hq : (message_bits str + 64) / 512 = q).
  { symmetry. apply Z.div_unique with (r := 511 - Z.of_nat k); lia. }
  rewrite Hq. lia.
Qed.

(** X13.  The padded message is the message, one '1', fewer than 512
    times '0' and the 64-bit length: padding adds no block that is not
    needed, so the number of 512-bit blocks is the integer part of
    (bit-length + 64) / 512, plus one. *)
Theorem padded_is_minimal (str : JS.source_string) :
  message_bits str < 2 ^ 64 ->
  exists step5 k p,
    Main.step5_combine_str str = Some step5
    /\ Main.padded str = Some p
    /\ p = step5 ++ "1" ++ replicate k "0" ++ be_bits 64 (message_bits str)
    /\ (k < 512)%nat
    /\ Z.of_nat (String.length p) = 512 * ((message_bits str + 64) / 512 + 1)
    /\ Z.of_nat (List.length (Main.step9_split_512b_chunks p))
       = (message_bits str + 64) / 512 + 1.
Proof.
  intros Hlen.
  destruct (padded_structure str Hlen) as (s5 & k & p & E5 & B5 & L5 & Hk & Ep & Es & Lp).
  exists s5, k, p. repeat split; try assumption.
  assert (Bp : binary p = true).
  { rewrite Es, !binary_append, B5, binary_zeros, binary_be_bits. reflexivity. }
  pose proof (message_bits_nonneg str) as Hnn.
  assert (Hq : 0 <= (message_bits str + 64) / 512) by (apply Z.div_pos; lia).
  destruct (split_every_spec (Z.to_nat ((message_bits str + 64) / 512 + 1))
              512 p) as (L & _); [lia | lia | exact Bp |].
  unfold Main.step9_split_512b_chunks. rewrite L. lia.
Qed.

Lemma padded_is_minimal_witness :
  message_bits (List.repeat 97%N 56) < 2 ^ 64
  /\ exists p,
       Main.padded (List.repeat 97%N 56) = Some p
       /\ Z.of_nat (String.length p)
          = 512 * ((message_bits (List.repeat 97%N 56) + 64) / 512 + 1).
Proof.
  assert (H : message_bits (List.repeat 97%N 56) < 2 ^ 64) by reflexivity.
  destruct (padded_is_minimal _ H) as (s5 & k & p & _ & E & _ & _ & L & _).
  split; [exact H|]. exists p. exact (conj E L).
Defined.

Lemma substring0_append (s t : string) :
  String.substring 0 (String.length s) (s ++ t) = s.
Proof.
  induction s as [|x s IH]; simpl; [now destruct t | now rewrite IH].
Qed.

Lemma padded_same_bits (str1 str2 : JS.source_string) :
  message_bits str1 < 2 ^ 64 -> message_bits str2 < 2 ^ 64 ->
  Main.padded str1 = Main.padded str2 ->
  Main.step5_combine_str str1 = Main.step5_combine_str str2.
Proof.
  intros H1 H2 Heq.
  destruct (padded_structure str1 H1)
    as (a & k1 & p1 & Ea & _ & La & _ & Ep1 & Es1 & _).
  destruct (padded_structure str2 H2)
    as (b & k2 & p2 & Eb & _ & Lb & _ & Ep2 & Es2 & _).
  rewrite Ep1, Ep2 in Heq. injection Heq as Hp. rewrite Ea, Eb. f_equal.
  pose proof (message_bits_nonneg str1). pose proof (message_bits_nonneg str2).
  assert (Hfield : be_bits 64 (message_bits str1) = be_bits 64 (message_bits str2)).
  { pose proof (f_equal (fun p => JS.substr_from (String.length p - 64) p) Hp)
      as Hcut. cbv beta in Hcut.
    assert (Hc : forall pre n,
              JS.substr_from (String.length (pre ++ be_bits 64 n) - 64)
                (pre ++ be_bits 64 n) = be_bits 64 n).
    { intros pre n. rewrite length_append, length_be_bits, Nat.add_sub.
      apply substr_from_append. }
    assert (R1 : p1 = (a ++ "1" ++ replicate k1 "0")
                      ++ be_bits 64 (message_bits str1))
      by (rewrite Es1, !append_assoc; reflexivity).
    assert (R2 : p2 = (b ++ "1" ++ replicate k2 "0")
                      ++ be_bits 64 (message_bits str2))
      by (rewrite Es2, !append_assoc; reflexivity).
    rewrite R1, R2 in Hcut.
    now rewrite !Hc in Hcut. }
  assert (Hbits : message_bits str1 = message_bits str2).
  { apply (f_equal value) in Hfield. rewrite !value_be_bits in Hfield.
    rewrite !Z.mod_small in Hfield by (change (Z.of_nat 64) with 64; lia).
    exact Hfield. }
  assert (Hl : String.length a = String.length b) by lia.
  rewrite <- (substring0_append a ("1" ++ replicate k1 "0" ++ be_bits 64 (message_bits str1))).
  rewrite <- (substring0_append b ("1" ++ replicate k2 "0" ++ be_bits 64 (message_bits str2))).
  rewrite <- Es1, <- Es2, Hp, Hl. reflexivity.
Qed.

(** X14.  Padding loses nothing: two messages with the same padded
    message have the same bits. *)
Theorem padded_injective (str1 str2 : JS.source_string) :
  message_bits str1 < 2 ^ 64 -> message_bits str2 < 2 ^ 64 ->
  Main.padded str1 = Main.padded str2 ->
  Main.step5_combine_str str1 = Main.step5_combine_str str2.
Proof. exact (padded_same_bits str1 str2). Qed.

Lemma padded_injective_witness :
  (message_bits (JS.char_codes "abc") < 2 ^ 64
   /\ Main.padded (JS.char_codes "abc") = Main.padded (JS.char_codes "abc"))
  /\ Main.step5_combine_str (JS.char_codes "abc")
     = Main.step5_combine_str (JS.char_codes "abc").
Proof.
  assert (H : message_bits (JS.char_codes "abc") < 2 ^ 64) by reflexivity.
  assert (E : Main.padded (JS.char_codes "abc")
              = Main.padded (JS.char_codes "abc")) by reflexivity.
  exact (conj (conj H E) (padded_injective _ _ H H E)).
Defined.

(** ** Splitting *)

Lemma split_loop_round_trip (fuel size : nat) (s : string) :
  (0 < size)%nat -> (String.length s <= fuel)%nat ->
  String.concat "" (Main.split_loop fuel size s) = s
  /\ List.Forall (fun p => (0 < String.length p <= size)%nat)
       (Main.split_loop fuel size s)
  /\ (List.length (Main.split_loop fuel size s) * size
      < String.length s + size)%nat
  /\ (String.length s <= List.length (Main.split_loop fuel size s) * size)%nat.
Proof.
  intros Hsize. revert s. induction fuel as [|fuel IH]; intros s Hf.
  - assert (Hs : s = "") by (destruct s; [reflexivity | simpl in Hf; lia]).
    subst s. cbn. split; [reflexivity|]. split; [constructor | lia].
  - cbn [Main.split_loop].
    destruct (Nat.ltb_spec 0 (String.length s)) as [Hpos|Hz].
    + pose proof (substring0_substr_from size s) as Hcut.
      pose proof (length_substring0 size s) as Hhead.
      pose proof (length_substr_from size s) as Htail.
      destruct (IH (JS.substr_from size s)) as (C & F & U & L); [lia|].
      unfold JS.substr. rewrite concat_empty_cons, C.
      split; [exact Hcut|]. split; [constructor; [lia | exact F]|].
      cbn [List.length].
      destruct (Nat.le_gt_cases (String.length s) size) as [Hle|Hgt].
      * assert (Hrest : JS.substr_from size s = "")
          by (destruct (JS.substr_from size s);
              [reflexivity | simpl in Htail; lia]).
        rewrite Hrest. destruct fuel; simpl; lia.
      * replace (S (List.length
                      (Main.split_loop fuel size (JS.substr_from size s)))
                 * size)%nat
          with (size + List.length
                         (Main.split_loop fuel size (JS.substr_from size s))
                       * size)%nat by reflexivity.
        lia.
    + assert (Hs : s = "") by (destruct s; [reflexivity | simpl in Hz; lia]).
      subst s. cbn. split; [reflexivity|]. split; [constructor | lia].
Qed.

(** X15.  Cutting a string into pieces of [size] characters, as steps 9
    and 10 do, loses nothing: the pieces, in order, concatenate to the
    string, each has from one to [size] characters, and there are as few
    pieces as can hold the string. *)
Theorem split_round_trip (size : nat) (s : string) :
  (0 < size)%nat ->
  String.concat "" (Main.split_every size s) = s
  /\ List.Forall (fun p => (0 < String.length p <= size)%nat)
       (Main.split_every size s)
  /\ (String.length s <= List.length (Main.split_every size s) * size
      < String.length s + size)%nat.
Proof.
  intros Hsize. unfold Main.split_every.
  destruct (split_loop_round_trip (String.length s) size s Hsize)
    as (C & F & U & L); [lia|].
  repeat split; assumption.
Qed.

Lemma split_round_trip_witness :
  (0 < 3)%nat
  /\ String.concat "" (Main.split_every 3 "10110100") = "10110100".
Proof.
  assert (H : (0 < 3)%nat) by lia.
  exact (conj H (proj1 (split_round_trip 3 "10110100" H))).
Defined.

(** ** Step 11 on other lists of words *)

(** X16.  The expansion of step 11 throws on a chunk of fewer than 14
    words (it reads a word that is not there), and leaves a list of 80
    words or more as it is. *)
Theorem expand_edges (words : list string) :
  ((List.length words < 14)%nat -> Main.expand words = None)
  /\ ((80 <= List.length words)%nat -> Main.expand words = Some words).
Proof.
  unfold Main.expand. split; intros H.
  - replace (80 - List.length words)%nat
      with (S (79 - List.length words)) by lia.
    cbn [Main.expand_loop].
    assert (E : List.nth_error words (16 - 3) = None)
      by (apply List.nth_error_None; lia).
    now rewrite E.
  - replace (80 - List.length words)%nat with 0%nat by lia. reflexivity.
Qed.

(** ** The program computes SHA-1 on 32-bit integers *)

Lemma land_complement (x y : Z) :
  0 <= x < 2 ^ 32 -> 0 <= y < 2 ^ 32 ->
  Z.land (2 ^ 32 - 1 - x) y = Z.land (Z.lnot x) y.
Proof.
  intros Hx Hy.
  replace (2 ^ 32 - 1 - x) with (Z.lnot x mod 2 ^ 32).
  - apply Z.bits_inj'. intros i Hi. rewrite !Z.land_spec.
    destruct (Z.lt_ge_cases i 32).
    + now rewrite Z.mod_pow2_bits_low by lia.
    + rewrite (testbit_above 32 y i) by lia. now rewrite !andb_false_r.
  - unfold Z.lnot, Z.pred. symmetry. apply Z.mod_unique with (q := -1); lia.
Qed.

Lemma value_round_f (i : nat) (b c d : string) :
  word32 b = true -> word32 c = true -> word32 d = true ->
  value (Main.round_f i b c d) = Num.f i (value b) (value c) (value d).
Proof.
  intros Hb Hc Hd. unfold Main.round_f, Num.f, maj.
  destruct (value_and b c Hb Hc) as [Wbc Vbc].
  destruct (value_and b d Hb Hd) as [Wbd Vbd].
  destruct (value_and c d Hc Hd) as [Wcd Vcd].
  destruct (value_xor b c Hb Hc) as [Xbc Vxbc].
  destruct (value_xor _ d Xbc Hd) as [_ Vx].
  destruct (value_not b Hb) as [Wn Vn].
  destruct (value_and _ d Wn Hd) as [Wnd Vnd].
  destruct (value_or _ _ Wbc Wnd) as [_ Vch].
  destruct (value_or _ _ Wbc Wbd) as [Wo Vo].
  destruct (value_or _ _ Wo Wcd) as [_ Vm].
  destruct (value_xor _ _ Wbc Wbd) as [Wx1 Vx1].
  destruct (value_xor _ _ Wx1 Wcd) as [_ Vx2].
  destruct (word32_value b Hb) as [_ Rb], (word32_value d Hd) as [_ Rd].
  destruct (i <? 20)%nat.
  { rewrite Vch, Vbc, Vnd, Vn. now rewrite land_complement. }
  destruct (i <? 40)%nat; [now rewrite Vx, Vxbc|].
  destruct (i <? 60)%nat; [|now rewrite Vx, Vxbc].
  rewrite Vx2, Vx1, Vbc, Vbd, Vcd.
  apply Z.bits_inj'. intros n _.
  rewrite !Z.lxor_spec, !Z.lor_spec, !Z.land_spec. apply majority_bits.
Qed.

Lemma value_round_k (i : nat) : value (Main.round_k i) = Num.k i.
Proof.
  unfold Main.round_k, Num.k.
  destruct (i <? 20)%nat; [reflexivity|].
  destruct (i <? 40)%nat; [reflexivity|].
  destruct (i <? 60)%nat; reflexivity.
Qed.

(** X17.  In every round the round function of three registers is, on
    their values, (b AND c) OR ((NOT b) AND d) up to round 19, b XOR c XOR d
    in rounds 20 to 39 and from round 60 on, and the majority in rounds 40
    to 59; the round constants are 5A827999, 6ED9EBA1, 8F1BBCDC and
    CA62C1D6. *)
Theorem round_function_values (i : nat) (b c d : string) :
  word32 b = true -> word32 c = true -> word32 d = true ->
  word32 (Main.round_f i b c d) = true
  /\ value (Main.round_f i b c d) = Num.f i (value b) (value c) (value d)
  /\ word32 (Main.round_k i) = true
  /\ value (Main.round_k i) = Num.k i.
Proof.
  intros Hb Hc Hd. split; [now apply word32_round_f|].
  split; [now apply value_round_f|].
  split; [apply word32_round_k | apply value_round_k].
Qed.

Lemma round_function_values_witness :
  (word32 (Main.h1 Main.initial) = true
   /\ word32 (Main.h2 Main.initial) = true
   /\ word32 (Main.h3 Main.initial) = true)
  /\ value (Main.round_f 7 (Main.h1 Main.initial) (Main.h2 Main.initial)
              (Main.h3 Main.initial))
     = Num.f 7 (value (Main.h1 Main.initial)) (value (Main.h2 Main.initial))
         (value (Main.h3 Main.initial)).
Proof.
  assert (Hb : word32 (Main.h1 Main.initial) = true) by reflexivity.
  assert (Hc : word32 (Main.h2 Main.initial) = true) by reflexivity.
  assert (Hd : word32 (Main.h3 Main.initial) = true) by reflexivity.
  destruct (round_function_values 7 _ _ _ Hb Hc Hd) as (_ & V & _).
  exact (conj (conj Hb (conj Hc Hd)) V).
Defined.

Lemma value_word_at (words : list string) (i : nat) :
  value (Main.word_at words i) = List.nth i (List.map value words) 0.
Proof.
  unfold Main.word_at.
  change 0 with (value "undefined"). symmetry. apply List.map_nth.
Qed.

Lemma num_rounds_succ (n : nat) (W : list Z) (r : Num.registers) :
  Num.rounds (S n) W r = Num.round W (Num.rounds n W r) n.
Proof.
  unfold Num.rounds. now rewrite List.seq_S, List.fold_left_app.
Qed.

Lemma rounds_values (n : nat) (words : list string) (r : Main.registers) :
  schedule_ok words = true -> registers_ok r = true -> (n <= 80)%nat ->
  exists r',
    Main.rounds n words r = Some r' /\ registers_ok r' = true
    /\ register_values r'
       = Num.rounds n (List.map value words) (register_values r).
Proof.
  intros Hw Hr. induction n as [|n IH]; intros Hn.
  - exists r. repeat split; assumption.
  - destruct IH as (r1 & E1 & R1 & V1); [lia|].
    destruct (round_spec words r1 n Hw R1)
      as (r2 & E2 & R2 & Va & Eb & Ec & Ed & Ee); [lia|].
    exists r2. rewrite rounds_succ, E1. cbn [bind].
    split; [exact E2|]. split; [exact R2|].
    rewrite num_rounds_succ, <- V1.
    apply registers_ok_iff in R1. destruct R1 as (Ha & Hb & Hc & Hd & He).
    unfold register_values, Num.round.
    cbn [Num.a Num.b Num.c Num.d Num.e].
    rewrite Va, Eb, Ec, Ed, Ee.
    rewrite (value_round_f n _ _ _ Hb Hc Hd), value_round_k, value_word_at.
    rewrite (value_rotate _ 30 Hb) by lia. reflexivity.
Qed.

Lemma process_chunk_values (h : Main.hash) (words : list string) :
  hash_ok h = true -> schedule_ok words = true ->
  exists h',
    Main.process_chunk h words = Some h' /\ hash_ok h' = true
    /\ hash_values h' = Num.compress (hash_values h) (List.map value words).
Proof.
  intros Hh Hw.
  destruct (process_chunk_spec h words Hh Hw)
    as (r & h' & E & R & P & H' & V0 & V1 & V2 & V3 & V4).
  destruct (rounds_values 80 words
              (Main.Registers (Main.h0 h) (Main.h1 h) (Main.h2 h) (Main.h3 h)
                 (Main.h4 h)) Hw) as (r' & E' & _ & V');
    [apply registers_ok_iff; apply hash_ok_iff in Hh; exact Hh | lia |].
  rewrite E in E'. injection E' as <-.
  exists h'. split; [exact P|]. split; [exact H'|].
  assert (Hr : Num.rounds 80 (List.map value words) (hash_values h)
               = register_values r) by (rewrite V'; reflexivity).
  unfold Num.compress. cbv zeta. rewrite Hr.
  unfold hash_values, register_values, add32.
  cbn [Num.a Num.b Num.c Num.d Num.e].
  now rewrite V0, V1, V2, V3, V4.
Qed.

(** X18.  Compressing one block on strings is compressing it on numbers:
    eighty rounds of a = (rotl5(a) + f + e + k + W[i]) mod 2^32 with the
    window shifted and b rotated by 30, then the five additions modulo
    2^32 into the hash state. *)
Theorem process_chunk_computes (h : Main.hash) (words : list string) :
  hash_ok h = true -> schedule_ok words = true ->
  exists h',
    Main.process_chunk h words = Some h' /\ hash_ok h' = true
    /\ hash_values h' = Num.compress (hash_values h) (List.map value words).
Proof. exact (process_chunk_values h words). Qed.

Lemma process_chunk_computes_witness :
  (hash_ok Main.initial = true /\ schedule_ok abc_schedule = true)
  /\ exists h',
       Main.process_chunk Main.initial abc_schedule = Some h'
       /\ hash_values h'
          = Num.compress (hash_values Main.initial)
              (List.map value abc_schedule).
Proof.
  assert (Hh : hash_ok Main.initial = true) by reflexivity.
  assert (Hw : schedule_ok abc_schedule = true) by reflexivity.
  destruct (process_chunk_computes Main.initial abc_schedule Hh Hw)
    as (h' & E & _ & V).
  split; [exact (conj Hh Hw)|]. exists h'. exact (conj E V).
Defined.

Lemma nth_value (words : list string) (i : nat) (w : string) :
  List.nth_error words i = Some w ->
  List.nth i (List.map value words) 0 = value w.
Proof.
  intros H. rewrite <- value_word_at. unfold Main.word_at.
  now rewrite (List.nth_error_nth words i "undefined" H).
Qed.

Lemma expand_loop_values (n j : nat) (words : list string) :
  List.length words = j -> (16 <= j)%nat -> words_ok words ->
  exists W,
    Main.expand_loop n j words = Some W /\ words_ok W
    /\ List.map value W = Num.expand_loop n j (List.map value words).
Proof.
  revert j words. induction n as [|n IH]; intros j words Hl Hj Hf.
  - exists words. repeat split; assumption.
  - destruct (nth_error_word words (j - 3) Hf) as (w3 & E3 & W3); [lia|].
    destruct (nth_error_word words (j - 8) Hf) as (w8 & E8 & W8); [lia|].
    destruct (nth_error_word words (j - 14) Hf) as (w14 & E14 & W14); [lia|].
    destruct (nth_error_word words (j - 16) Hf) as (w16 & E16 & W16); [lia|].
    cbn [Main.expand_loop Num.expand_loop].
    rewrite E3, E8, E14, E16. cbn [bind].
    rewrite (nth_value _ _ _ E3), (nth_value _ _ _ E8),
      (nth_value _ _ _ E14), (nth_value _ _ _ E16).
    destruct (value_xor w3 w8 W3 W8) as [X1 V1].
    destruct (value_xor _ w14 X1 W14) as [X2 V2].
    destruct (value_xor _ w16 X2 W16) as [X3 V3].
    pose proof (value_rotate _ 1 X3 ltac:(lia)) as Vr.
    change (Z.of_nat 1) with 1 in Vr.
    rewrite <- V1, <- V2, <- V3, <- Vr.
    set (tmp := Utils.rotate _ 1).
    destruct (IH (S j) (words ++ [tmp])%list) as (W & E & F & V).
    + rewrite List.length_app. simpl. lia.
    + lia.
    + apply List.Forall_app. split; [assumption|].
      constructor; [|constructor]. now apply word32_rotate.
    + exists W. split; [exact E|]. split; [exact F|].
      rewrite V, List.map_app. reflexivity.
Qed.

Lemma expand_values (block : list string) :
  List.length block = 16%nat -> words_ok block ->
  exists W,
    Main.expand block = Some W /\ schedule_ok W = true
    /\ List.map value W = Num.expand (List.map value block).
Proof.
  intros Hl Hf.
  destruct (expand_spec block Hl Hf) as (W & E & S & _).
  destruct (expand_loop_values (80 - 16) 16 block Hl ltac:(lia) Hf)
    as (W' & E' & _ & V).
  unfold Main.expand in E. rewrite Hl in E. rewrite E in E'.
  injection E' as <-. exists W. unfold Main.expand, Num.expand.
  rewrite List.length_map, Hl. repeat split; assumption.
Qed.

(** X19.  Expanding a block on strings is expanding it on numbers: the
    values of the eighty words are the sixteen values of the block followed
    by W[t] = rotl1(W[t-3] xor W[t-8] xor W[t-14] xor W[t-16]). *)
Theorem expand_computes (block : list string) :
  List.length block = 16%nat ->
  List.Forall (fun w => word32 w = true) block ->
  exists W,
    Main.expand block = Some W /\ schedule_ok W = true
    /\ List.map value W = Num.expand (List.map value block).
Proof. exact (expand_values block). Qed.

Lemma expand_computes_witness :
  (List.length abc_block = 16%nat
   /\ List.Forall (fun w => word32 w = true) abc_block)
  /\ exists W,
       Main.expand abc_block = Some W
       /\ List.map value W = Num.expand (List.map value abc_block).
Proof.
  assert (Hl : List.length abc_block = 16%nat) by reflexivity.
  assert (Hw : List.Forall (fun w => word32 w = true) abc_block)
    by (repeat constructor).
  destruct (expand_computes abc_block Hl Hw) as (W & E & _ & V).
  split; [exact (conj Hl Hw)|]. exists W. exact (conj E V).
Defined.

Lemma hash_blocks_values (blocks : list (list string)) (h : Main.hash) :
  List.Forall (fun block => List.length block = 16%nat /\ words_ok block)
    blocks ->
  hash_ok h = true ->
  exists scheds h',
    mapM Main.expand blocks = Some scheds
    /\ foldM Main.process_chunk scheds h = Some h'
    /\ hash_ok h' = true
    /\ hash_values h'
       = List.fold_left (fun h block => Num.compress h (Num.expand block))
           (List.map (List.map value) blocks) (hash_values h).
Proof.
  intros Hb. revert h. induction Hb as [|block blocks [Hl Hw] _ IH]; intros h Hh.
  - exists [], h. repeat split; assumption.
  - destruct (expand_values block Hl Hw) as (W & E & S & V).
    destruct (process_chunk_values h W Hh S) as (h1 & P & H1 & V1).
    destruct (IH h1 H1) as (scheds & h' & Em & Ef & H' & V').
    exists (W :: scheds), h'. cbn [mapM foldM List.map List.fold_left].
    rewrite E. cbn [bind]. rewrite Em. cbn [bind]. rewrite P. cbn [bind].
    split; [reflexivity|]. split; [exact Ef|]. split; [exact H'|].
    now rewrite V', V1, V.
Qed.

(** X20.  The digest of a message is SHA-1 of its padded message computed
    on 32-bit integers: the five groups of eight hexadecimal digits are
    the five registers of [Num.hash], which starts from 67452301, EFCDAB89,
    98BADCFE, 10325476, C3D2E1F0 and compresses the expanded blocks in
    order. *)
Theorem sha1_computes (str : JS.source_string) :
  message_bits str < 2 ^ 64 ->
  exists p x0 x1 x2 x3 x4,
    Main.padded str = Some p
    /\ Main.sha1 str = Some (x0 ++ x1 ++ x2 ++ x3 ++ x4)
    /\ (String.length x0 = 8 /\ String.length x1 = 8 /\ String.length x2 = 8
        /\ String.length x3 = 8 /\ String.length x4 = 8)%nat
    /\ all_hex (x0 ++ x1 ++ x2 ++ x3 ++ x4) = true
    /\ hex_value x0 = Num.a (Num.hash (block_values p))
    /\ hex_value x1 = Num.b (Num.hash (block_values p))
    /\ hex_value x2 = Num.c (Num.hash (block_values p))
    /\ hex_value x3 = Num.d (Num.hash (block_values p))
    /\ hex_value x4 = Num.e (Num.hash (block_values p)).
Proof.
  intros Hlen.
  destruct (padded_structure str Hlen)
    as (s5 & k & p & E5 & B5 & L5 & Hk & Ep & Es & Lp).
  assert (Bp : binary p = true).
  { rewrite Es, !binary_append, B5, binary_zeros, binary_be_bits. reflexivity. }
  pose proof (message_bits_nonneg str) as Hnn.
  assert (Hq : 0 <= (message_bits str + 64) / 512) by (apply Z.div_pos; lia).
  destruct (blocks_spec (Z.to_nat ((message_bits str + 64) / 512 + 1)) p)
    as (_ & Fb); [lia | exact Bp |].
  destruct (hash_blocks_values _ Main.initial Fb hash_ok_initial)
    as (scheds & h & Em & Ef & Hh & V).
  destruct (step14_hex h Hh)
    as (x0 & x1 & x2 & x3 & x4 & E14 & A & L & V0 & V1 & V2 & V3 & V4).
  exists p, x0, x1, x2, x3, x4. split; [exact Ep|]. split.
  { unfold Main.sha1, Main.schedules, Main.step11_80_words_per_chunk,
      Main.step13.
    rewrite Ep. cbn [bind]. rewrite Em. cbn [bind]. rewrite Ef. cbn [bind].
    exact E14. }
  split; [exact L|]. split; [exact A|].
  assert (Hn : hash_values h = Num.hash (block_values p)) by exact V.
  rewrite <- Hn. cbn [hash_values Num.a Num.b Num.c Num.d Num.e].
  repeat split; assumption.
Qed.

Lemma sha1_computes_witness :
  message_bits (JS.char_codes "abc") < 2 ^ 64
  /\ exists p digest,
       Main.padded (JS.char_codes "abc") = Some p
       /\ Main.sha1 (JS.char_codes "abc") = Some digest
       /\ hex_value (String.substring 0 8 digest)
          = Num.a (Num.hash (block_values p)).
Proof.
  assert (H : message_bits (JS.char_codes "abc") < 2 ^ 64) by reflexivity.
  destruct (sha1_computes (JS.char_codes "abc") H)
    as (p & x0 & x1 & x2 & x3 & x4 & Ep & E & (L0 & _) & _ & V0 & _).
  split; [exact H|]. exists p, (x0 ++ x1 ++ x2 ++ x3 ++ x4).
  split; [exact Ep|]. split; [exact E|].
  rewrite <- L0, substring0_append. exact V0.
Defined.

(** The numbers of the test vector "abc". *)
Example num_hash_abc :
  Num.hash [List.map value abc_block]
  = Num.Registers 0xa9993e36 0x4706816a 0xba3e2571 0x7850c26c 0x9cd0d89d.
Proof. vm_compute. reflexivity. Qed.

(** ** The encoding of code units *)

Lemma unit_bits_spec (c : N) :
  Main.pad8 (JS.toString 2 (JS.Num (Z.of_N c))) = Some (unit_bits c)
  /\ Z.of_nat (String.length (unit_bits c)) = code_unit_bits c
  /\ value (unit_bits c) = Z.of_N c.
Proof.
  destruct (encode_unit_spec c) as (p & E & B & V & L & _).
  assert (Hc : 0 <= Z.of_N c) by lia.
  assert (Hw : Z.of_N c < 2 ^ code_unit_bits c).
  { unfold code_unit_bits.
    apply Z.lt_le_trans with (2 ^ (Z.log2 (Z.of_N c) + 1)).
    - destruct (Z.eq_dec (Z.of_N c) 0) as [-> | Hz]; [reflexivity|].
      apply Z.log2_spec. lia.
    - apply Z.pow_le_mono_r; lia. }
  assert (Hp : p = unit_bits c).
  { unfold unit_bits. apply binary_by_value; [exact B | lia |].
    rewrite V, <- L, Nat2Z.id, L. symmetry. apply Z.mod_small. lia. }
  subst p. split; [exact E|]. split; [exact L | exact V].
Qed.

Lemma step4_closed (str : JS.source_string) :
  Main.step4_ascii_binary_8_length str = Some (List.map unit_bits str).
Proof.
  unfold Main.step4_ascii_binary_8_length, Main.step3_ascii_binary,
    Main.step2_to_ascii_code.
  induction str as [|c str IH]; [reflexivity|].
  cbn [List.map mapM]. rewrite (proj1 (unit_bits_spec c)). cbn [bind].
  now rewrite IH.
Qed.

Lemma step5_closed (str : JS.source_string) :
  Main.step5_combine_str str
  = Some (String.concat "" (List.map unit_bits str)).
Proof. unfold Main.step5_combine_str. now rewrite step4_closed. Qed.

(** X21.  Steps 1 to 5 write every code unit as its binary digits, padded
    on the left to eight characters when there are fewer and not cut when
    there are more: the message is the concatenation of these groups, and
    a code unit from 256 on takes nine characters or more. *)
Theorem input_encoding_any_unit (str : JS.source_string) :
  Main.step5_combine_str str
  = Some (String.concat "" (List.map unit_bits str))
  /\ List.Forall
       (fun c =>
          Z.of_nat (String.length (unit_bits c))
          = Z.max 8 (Z.log2 (Z.of_N c) + 1)
          /\ value (unit_bits c) = Z.of_N c
          /\ ((256 <= c)%N -> (9 <= String.length (unit_bits c))%nat)) str.
Proof.
  split; [apply step5_closed|].
  apply List.Forall_forall. intros c _.
  destruct (unit_bits_spec c) as (_ & L & V).
  split; [exact L|]. split; [exact V|].
  intros Hc. unfold code_unit_bits in L.
  assert (8 <= Z.log2 (Z.of_N c)).
  { apply Z.log2_le_pow2; [lia|]. change (2 ^ 8) with 256. lia. }
  lia.
Qed.

Lemma concat_empty_app (l1 l2 : list string) :
  String.concat "" (l1 ++ l2)
  = String.concat "" l1 ++ String.concat "" l2.
Proof.
  induction l1 as [|x l1 IH]; [reflexivity|].
  cbn [List.app]. now rewrite !concat_empty_cons, IH, append_assoc.
Qed.

Lemma be_bits_split (m n : nat) (x : Z) :
  be_bits (m + n) x = be_bits m (x / 2 ^ Z.of_nat n) ++ be_bits n x.
Proof.
  induction m as [|m IH]; [reflexivity|].
  cbn [Nat.add be_bits append]. rewrite IH. f_equal. f_equal.
  rewrite Z.div_pow2_bits by lia. f_equal. lia.
Qed.

Lemma sha1_of_bits (str1 str2 : JS.source_string) :
  Main.step5_combine_str str1 = Main.step5_combine_str str2 ->
  Main.sha1 str1 = Main.sha1 str2.
Proof.
  intros H. unfold Main.sha1, Main.schedules, Main.padded. now rewrite H.
Qed.

(** X22.  A code unit from 0x8000 on is hashed like its two bytes: the
    sixteen binary digits of 256 * hi + lo are those of the byte [hi]
    followed by those of the byte [lo], so the two messages have the same
    bits and the same digest. *)
Theorem wide_unit_collides (pre post : JS.source_string) (hi lo : N) :
  (128 <= hi < 256)%N -> (lo < 256)%N ->
  Main.step5_combine_str (pre ++ [256 * hi + lo] ++ post)%N%list
  = Main.step5_combine_str (pre ++ [hi; lo] ++ post)%list
  /\ Main.sha1 (pre ++ [256 * hi + lo] ++ post)%N%list
     = Main.sha1 (pre ++ [hi; lo] ++ post)%list.
Proof.
  intros Hhi Hlo.
  assert (E : Main.step5_combine_str (pre ++ [256 * hi + lo] ++ post)%N%list
              = Main.step5_combine_str (pre ++ [hi; lo] ++ post)%list).
  { rewrite !step5_closed. f_equal.
    rewrite !List.map_app, !concat_empty_app. f_equal. f_equal.
    cbn [List.map]. rewrite !concat_empty_cons. cbn [String.concat].
    rewrite !append_nil_r.
    assert (Hx : Z.of_N (256 * hi + lo) = 256 * Z.of_N hi + Z.of_N lo) by lia.
    assert (L16 : code_unit_bits (256 * hi + lo) = 16).
    { unfold code_unit_bits. rewrite Hx.
      rewrite (Z.log2_unique (256 * Z.of_N hi + Z.of_N lo) 15) by lia. lia. }
    assert (L8 : forall c, (c < 256)%N -> code_unit_bits c = 8).
    { intros c Hc. unfold code_unit_bits.
      destruct (Z.eq_dec (Z.of_N c) 0) as [-> | Hz]; [reflexivity|].
      assert (Z.log2 (Z.of_N c) < 8); [|lia].
      apply Z.log2_lt_pow2; [lia|]. change (2 ^ 8) with 256. lia. }
    unfold unit_bits. rewrite L16, (L8 hi), (L8 lo), Hx by lia.
    change (Z.to_nat 16) with (8 + 8)%nat. change (Z.to_nat 8) with 8%nat.
    rewrite be_bits_split. f_equal.
    - f_equal. change (2 ^ Z.of_nat 8) with 256.
      symmetry. apply Z.div_unique with (r := Z.of_N lo); lia.
    - rewrite <- (be_bits_low 8 8) by lia. f_equal.
      change (2 ^ Z.of_nat 8) with 256.
      symmetry. apply Z.mod_unique with (q := Z.of_N hi); lia. }
  split; [exact E | now apply sha1_of_bits].
Qed.

Lemma wide_unit_collides_witness :
  ((128 <= 128 < 256)%N /\ (128 < 256)%N)
  /\ Main.sha1 (JS.char_codes "a" ++ [256 * 128 + 128] ++ [])%N%list
     = Main.sha1 (JS.char_codes "a" ++ [128; 128] ++ [])%N%list.
Proof.
  assert (Hhi : (128 <= 128 < 256)%N) by lia.
  assert (Hlo : (128 < 256)%N) by lia.
  exact (conj (conj Hhi Hlo)
           (proj2 (wide_unit_collides (JS.char_codes "a") [] 128 128 Hhi Hlo))).
Defined.

Lemma bytes_of_bits (str1 str2 : JS.source_string) :
  List.forallb is_byte str1 = true -> List.forallb is_byte str2 = true ->
  String.concat "" (List.map byte_bits str1)
  = String.concat "" (List.map byte_bits str2) ->
  str1 = str2.
Proof.
  revert str2. induction str1 as [|c1 r1 IH]; intros [|c2 r2] H1 H2 E.
  - reflexivity.
  - apply (f_equal String.length) in E. cbn [List.map] in E.
    rewrite concat_empty_cons, length_append in E. unfold byte_bits in E.
    rewrite length_be_bits in E. simpl in E. lia.
  - apply (f_equal String.length) in E. cbn [List.map] in E.
    rewrite concat_empty_cons, length_append in E. unfold byte_bits in E.
    rewrite length_be_bits in E. simpl in E. lia.
  - cbn [List.forallb] in H1, H2.
    apply andb_true_iff in H1. apply andb_true_iff in H2.
    destruct H1 as [B1 R1], H2 as [B2 R2].
    cbn [List.map] in E. rewrite !concat_empty_cons in E.
    assert (Hhead : byte_bits c1 = byte_bits c2).
    { pose proof (f_equal (String.substring 0 8) E) as H.
      rewrite <- (length_be_bits 8 (Z.of_N c1)) in H at 1.
      rewrite <- (length_be_bits 8 (Z.of_N c2)) in H at 2.
      unfold byte_bits in *. now rewrite !substring0_append in H. }
    assert (Htail : String.concat "" (List.map byte_bits r1)
                    = String.concat "" (List.map byte_bits r2)).
    { pose proof (f_equal (JS.substr_from 8) E) as H.
      rewrite <- (length_be_bits 8 (Z.of_N c1)) in H at 1.
      rewrite <- (length_be_bits 8 (Z.of_N c2)) in H at 2.
      unfold byte_bits in *. now rewrite !substr_from_append in H. }
    f_equal; [|now apply IH].
    apply (f_equal value) in Hhead. unfold byte_bits in Hhead.
    rewrite !value_be_bits in Hhead.
    unfold is_byte in B1, B2. apply N.ltb_lt in B1. apply N.ltb_lt in B2.
    change (2 ^ Z.of_nat 8) with 256 in Hhead.
    rewrite !Z.mod_small in Hhead by lia. lia.
Qed.

(** X23.  On messages of bytes the encoding and the padding lose nothing:
    two messages of code units 0 to 255 with the same padded message are
    the same message. *)
Theorem padded_bytes_injective (str1 str2 : JS.source_string) :
  List.forallb is_byte str1 = true -> List.forallb is_byte str2 = true ->
  message_bits str1 < 2 ^ 64 -> message_bits str2 < 2 ^ 64 ->
  Main.padded str1 = Main.padded str2 ->
  str1 = str2.
Proof.
  intros B1 B2 H1 H2 Heq.
  pose proof (padded_same_bits str1 str2 H1 H2 Heq) as Hbits.
  destruct (step5_spec str1) as (a & Ea & _ & _ & Ca).
  destruct (step5_spec str2) as (b & Eb & _ & _ & Cb).
  rewrite Ea, Eb in Hbits. injection Hbits as Hab.
  apply bytes_of_bits; try assumption.
  now rewrite <- (Ca B1), <- (Cb B2).
Qed.

Lemma padded_bytes_injective_witness :
  (List.forallb is_byte (JS.char_codes "abc") = true
   /\ message_bits (JS.char_codes "abc") < 2 ^ 64
   /\ Main.padded (JS.char_codes "abc") = Main.padded (JS.char_codes "abc"))
  /\ JS.char_codes "abc" = JS.char_codes "abc".
Proof.
  assert (B : List.forallb is_byte (JS.char_codes "abc") = true)
    by reflexivity.
  assert (H : message_bits (JS.char_codes "abc") < 2 ^ 64) by reflexivity.
  assert (E : Main.padded (JS.char_codes "abc")
              = Main.padded (JS.char_codes "abc")) by reflexivity.
  exact (conj (conj B (conj H E)) (padded_bytes_injective _ _ B B H H E)).
Defined.

(** ** The unfinished draft *)

Lemma rotl32_lxor (x y : Z) :
  0 <= x < 2 ^ 32 -> 0 <= y < 2 ^ 32 -> 0 <= Z.lxor x y < 2 ^ 32 ->
  rotl32 1 (Z.lxor x y) = Z.lxor (rotl32 1 x) (rotl32 1 y).
Proof.
  intros Hx Hy Hxy. apply Z.bits_inj'. intros i Hi.
  pose proof (rotl32_range 1 x). pose proof (rotl32_range 1 y).
  pose proof (rotl32_range 1 (Z.lxor x y)).
  rewrite Z.lxor_spec. destruct (Z.lt_ge_cases i 32).
  - rewrite !testbit_rotl32 by lia. apply Z.lxor_spec.
  - now rewrite !(testbit_above 32 _ i) by lia.
Qed.

Lemma rotate_xor (s t : string) :
  word32 s = true -> word32 t = true ->
  Utils.rotate (Utils.xor s t) 1
  = Utils.xor (Utils.rotate s 1) (Utils.rotate t 1).
Proof.
  intros Hs Ht.
  destruct (value_xor s t Hs Ht) as [Wx Vx].
  pose proof (word32_rotate s 1 Hs) as Rs.
  pose proof (word32_rotate t 1 Ht) as Rt.
  destruct (value_xor _ _ Rs Rt) as [Wr Vr].
  pose proof (word32_rotate _ 1 Wx) as Wl.
  destruct (word32_value _ Wl) as [El _], (word32_value _ Wr) as [Er _].
  rewrite El, Er. f_equal.
  rewrite Vr, !value_rotate by (assumption || lia). rewrite Vx.
  destruct (word32_value s Hs) as [_ Bs], (word32_value t Ht) as [_ Bt].
  destruct (word32_value _ Wx) as [_ Bx]. rewrite Vx in Bx.
  now apply rotl32_lxor.
Qed.

Lemma xor_recurrence_at_app (W ext : list string) (t : nat) :
  (t < List.length W)%nat -> xor_recurrence_at W t ->
  xor_recurrence_at (W ++ ext)%list t.
Proof.
  intros Ht (w3 & w8 & w14 & w16 & E3 & E8 & E14 & E16 & Et).
  exists w3, w8, w14, w16.
  rewrite !List.nth_error_app1 by lia. tauto.
Qed.

Lemma draft_expand_loop_spec (n j : nat) (words : list string) :
  List.length words = j -> (16 <= j)%nat -> words_ok words ->
  (forall t, (16 <= t < j)%nat -> xor_recurrence_at words t) ->
  exists X,
    Draft.expand_loop n j words = Some X
    /\ List.length X = (j + n)%nat
    /\ words_ok X
    /\ (forall t, (t < j)%nat -> List.nth_error X t = List.nth_error words t)
    /\ (forall t, (16 <= t < j + n)%nat -> xor_recurrence_at X t).
Proof.
  revert j words. induction n as [|n IH]; intros j words Hl Hj Hf Hrec.
  - exists words. rewrite Nat.add_0_r. repeat split; assumption.
  - destruct (nth_error_word words (j - 3) Hf) as (w3 & E3 & W3); [lia|].
    destruct (nth_error_word words (j - 8) Hf) as (w8 & E8 & W8); [lia|].
    destruct (nth_error_word words (j - 14) Hf) as (w14 & E14 & W14); [lia|].
    destruct (nth_error_word words (j - 16) Hf) as (w16 & E16 & W16); [lia|].
    cbn [Draft.expand_loop]. rewrite E3, E8, E14, E16. cbn [bind].
    set (x := Utils.xor (Utils.xor (Utils.xor w3 w8) w14) w16).
    destruct (value_xor w3 w8 W3 W8) as [X1 _].
    destruct (value_xor _ w14 X1 W14) as [X2 _].
    destruct (value_xor _ w16 X2 W16) as [X3 _]. fold x in X3.
    assert (Hnew : xor_recurrence_at (words ++ [x])%list j).
    { exists w3, w8, w14, w16.
      rewrite !List.nth_error_app1 by lia.
      rewrite List.nth_error_app2, Hl, Nat.sub_diag by lia.
      repeat split; assumption. }
    destruct (IH (S j) (words ++ [x])%list) as (X & E & L & F & P & R).
    + rewrite List.length_app. simpl. lia.
    + lia.
    + apply List.Forall_app. split; [assumption|].
      constructor; [exact X3 | constructor].
    + intros t Ht. destruct (Nat.eq_dec t j) as [-> | Hne]; [exact Hnew|].
      apply xor_recurrence_at_app; [lia|]. apply Hrec. lia.
    + exists X. split; [exact E|]. split; [lia|]. split; [exact F|]. split.
      * intros t Ht. rewrite P by lia. apply List.nth_error_app1. lia.
      * intros t Ht. apply R. lia.
Qed.

Lemma draft_block (block : list string) :
  List.length block = 16%nat /\ words_ok block ->
  exists X,
    Draft.expand_loop (80 - List.length block) 16 block = Some X
    /\ draft_words_of block (List.map (fun word => Utils.rotate word 1) X).
Proof.
  intros [Hl Hf]. rewrite Hl.
  destruct (draft_expand_loop_spec (80 - 16) 16 block Hl)
    as (X & E & L & F & P & R); [lia | assumption | intros t Ht; lia |].
  exists X. split; [exact E|]. split; [now rewrite List.length_map|]. split.
  { apply List.Forall_map. eapply List.Forall_impl; [|exact F].
    intros w Hw. now apply word32_rotate. }
  split.
  - intros t Ht. rewrite List.nth_error_map, P by lia. reflexivity.
  - intros t Ht.
    destruct (R t ltac:(lia)) as (w3 & w8 & w14 & w16 & E3 & E8 & E14 & E16 & Et).
    assert (G : forall i w, List.nth_error X i = Some w -> word32 w = true).
    { intros i w Hi. unfold words_ok in F. rewrite List.Forall_forall in F.
      apply F. eapply List.nth_error_In. exact Hi. }
    pose proof (G _ _ E3) as W3. pose proof (G _ _ E8) as W8.
    pose proof (G _ _ E14) as W14. pose proof (G _ _ E16) as W16.
    destruct (value_xor w3 w8 W3 W8) as [X1 _].
    destruct (value_xor _ w14 X1 W14) as [X2 _].
    exists (Utils.rotate w3 1), (Utils.rotate w8 1),
      (Utils.rotate w14 1), (Utils.rotate w16 1).
    rewrite !List.nth_error_map, E3, E8, E14, E16, Et. cbn [option_map].
    repeat split.
    rewrite (rotate_xor _ w16 X2 W16), (rotate_xor _ w14 X1 W14),
      (rotate_xor w3 w8 W3 W8). reflexivity.
Qed.

Lemma draft_blocks (blocks : list (list string)) :
  List.Forall (fun block => List.length block = 16%nat /\ words_ok block)
    blocks ->
  exists Xs,
    Draft.step11_80_words_per_chunk blocks = Some Xs
    /\ List.Forall2 draft_words_of blocks (Draft.step12_rotate_words Xs).
Proof.
  unfold Draft.step11_80_words_per_chunk, Draft.step12_rotate_words.
  induction 1 as [|block blocks Hb _ IH].
  - exists []. split; [reflexivity | constructor].
  - destruct (draft_block block Hb) as (X & E & D).
    destruct IH as (Xs & Es & Ds).
    exists (X :: Xs). cbn [mapM List.map]. rewrite E. cbn [bind]. rewrite Es.
    split; [reflexivity | now constructor].
Qed.

(** X24.  The unfinished draft returns, for every block of the padded
    message, eighty registers: the sixteen words of the block, each
    rotated by one bit, and then words that are the plain exclusive or of
    the returned words 3, 8, 14 and 16 places before, without the rotation
    of the finished program. *)
Theorem draft_words (str : JS.source_string) :
  message_bits str < 2 ^ 64 ->
  exists p out,
    Main.padded str = Some p
    /\ Draft.sha1 str = Some out
    /\ List.Forall2 draft_words_of
         (Main.step10_split_32b_words (Main.step9_split_512b_chunks p)) out.
Proof.
  intros Hlen.
  destruct (padded_structure str Hlen)
    as (s5 & k & p & E5 & B5 & L5 & Hk & Ep & Es & Lp).
  assert (Bp : binary p = true).
  { rewrite Es, !binary_append, B5, binary_zeros, binary_be_bits. reflexivity. }
  pose proof (message_bits_nonneg str) as Hnn.
  assert (Hq : 0 <= (message_bits str + 64) / 512) by (apply Z.div_pos; lia).
  destruct (blocks_spec (Z.to_nat ((message_bits str + 64) / 512 + 1)) p)
    as (_ & Fb); [lia | exact Bp |].
  destruct (draft_blocks _ Fb) as (Xs & E & D).
  exists p, (Draft.step12_rotate_words Xs). split; [exact Ep|]. split.
  - unfold Draft.sha1. rewrite Ep. cbn [bind]. rewrite E. reflexivity.
  - exact D.
Qed.

Lemma draft_words_witness :
  message_bits (JS.char_codes "A Test") < 2 ^ 64
  /\ exists out,
       Draft.sha1 (JS.char_codes "A Test") = Some out
       /\ List.length out = 1%nat.
Proof.
  assert (H : message_bits (JS.char_codes "A Test") < 2 ^ 64) by reflexivity.
  destruct (draft_words (JS.char_codes "A Test") H) as (p & out & Ep & E & D).
  split; [exact H|]. exists out. split; [exact E|].
  apply List.Forall2_length in D. rewrite <- D.
  vm_compute in Ep. injection Ep as <-. reflexivity.
Defined.
